(** * InstaLooter: the discovery / filter / queue pipeline of [looters.py]

    A shallow embedding of [instalooter/looters.py]: the looter object and its
    constructor, the queue-filling loop [_fill_media_queue], the worker
    bookkeeping ([_init_workers], [_poison_workers], [_join_workers]) and the
    two [download] entry points ([InstaLooter.download] and the override in
    [PostLooter]).

    Conventions.
    - A media dictionary is a record holding the keys the module reads
      ([__typename], [is_video], [shortcode], the children of a sidecar) and
      an association list [fields] for every other key, with the values a
      JSON document holds at the leaves.
    - The collaborators living in other modules ([NameGenerator], the
      [requests] session behind [get_post_info], the destination filesystem,
      the pages/medias iterators) are records of functions: the code of this
      module is verified for every behaviour of theirs.
    - Python exceptions are the [Raise] results of a small error monad; the
      observable actions of [download] (opening and closing a filesystem,
      warnings, thread starts) are appended to a trace. *)

From Stdlib Require Import List String ZArith Bool Arith Lia.
Import ListNotations.

Local Open Scope string_scope.
Local Open Scope list_scope.
Local Open Scope Z_scope.

Local Set Warnings "-register-all".

(** ** Media dictionaries *)

(** The values of the keys a media dictionary holds beside the ones the module
    reads. *)
Inductive PyValue : Type :=
| PyStr (s : string)
| PyInt (z : Z)
| PyBool (b : bool)
| PyNone.

Inductive Media : Type := mkMedia {
  typename  : string;                   (* media["__typename"] *)
  is_video  : bool;                     (* media["is_video"] *)
  shortcode : string;                   (* media["shortcode"] *)
  fields    : list (string * PyValue);  (* the remaining keys *)
  edges     : list Media                (* media["edge_sidecar_to_children"]["edges"],
                                           each edge standing for its ["node"] *)
}.

Definition GraphImage   : string := "GraphImage".
Definition GraphVideo   : string := "GraphVideo".
Definition GraphSidecar : string := "GraphSidecar".

(** [media["edge_sidecar_to_children"]["edges"]] after the in-place update. *)
Definition set_edges (media : Media) (es : list Media) : Media :=
  mkMedia (typename media) (is_video media) (shortcode media) (fields media) es.


(** *** Equality of dictionaries ([==]), as used by [list.remove]

    Python compares dictionaries key by key, whatever the order the keys came
    in, and numbers by value, a boolean being the number 0 or 1. Two
    dictionaries that are equal in this sense need not be the same: a
    condition may look at the order of the keys, or tell [True] from [1].
    The three keys the module reads hold strings and a JSON boolean. *)

(** The number a value is, if it is one. *)
Definition as_number (v : PyValue) : option Z :=
  match v with
  | PyInt z => Some z
  | PyBool b => Some (if b then 1 else 0)
  | PyStr _ | PyNone => None
  end.

(** [a == b] on values *)
Definition value_eqb (a b : PyValue) : bool :=
  match as_number a, as_number b with
  | Some x, Some y => x =? y
  | None, None =>
      match a, b with
      | PyStr s, PyStr t => String.eqb s t
      | PyNone, PyNone => true
      | _, _ => false
      end
  | _, _ => false
  end.

(** What a key is bound to, the first binding counting. *)
Fixpoint binding (key : string) (l : list (string * PyValue))
    : option PyValue :=
  match l with
  | [] => None
  | (k, v) :: l' => if String.eqb k key then Some v else binding key l'
  end.

(** Every key of [keys] is bound in both [l1] and [l2], to equal values. *)
Definition bound_alike (keys l1 l2 : list (string * PyValue)) : bool :=
  forallb (fun kv =>
             match binding (fst kv) l1, binding (fst kv) l2 with
             | Some a, Some b => value_eqb a b
             | _, _ => false
             end) keys.

(** [==] on the remaining keys: the same keys, bound to equal values. *)
Definition fields_eqb (l1 l2 : list (string * PyValue)) : bool :=
  bound_alike l1 l1 l2 && bound_alike l2 l1 l2.

(** [a == b] on media dictionaries; the children compare as lists do, one by
    one in order. *)
Fixpoint media_eqb (a b : Media) {struct a} : bool :=
  match a, b with
  | mkMedia t1 v1 s1 f1 es1, mkMedia t2 v2 s2 f2 es2 =>
      String.eqb t1 t2 && Bool.eqb v1 v2 && String.eqb s1 s2 && fields_eqb f1 f2
      && (fix edges_eqb (l1 l2 : list Media) {struct l1} : bool :=
            match l1, l2 with
            | [], [] => true
            | x :: l1', y :: l2' => media_eqb x y && edges_eqb l1' l2'
            | _, _ => false
            end) es1 es2
  end.

(** ** Exceptions *)

Inductive Exn : Type :=
| TypeError (msg : string)
| ValueError (msg : string).

Inductive Result (A : Type) : Type :=
| Ok (a : A)
| Raise (e : Exn).
Arguments Ok {A} a.
Arguments Raise {A} e.

(** ** Collaborators *)

(** [instalooter._utils.NameGenerator], as this module uses it. *)
Record NameGenerator : Type := {
  needs_extended : Media -> bool;   (* namegen.needs_extended(media) *)
  file           : Media -> string  (* namegen.file(media) *)
}.

(** The [requests] session: what [session.get(url).json()] holds under
    ['graphql']['shortcode_media'] for the post page of a shortcode. A
    request that fails, or an answer without these keys, raises out of
    every function that asks: the functions below are followed along the
    runs in which the session answers. *)
Record Session : Type := {
  shortcode_media : string -> Media
}.

(** A [fs.base.FS] instance: an identity and the paths it holds. *)
Record FS : Type := {
  fs_id     : nat;
  fs_exists : string -> bool        (* destination.exists(path) *)
}.

(** ** The looter object *)

Record InstaLooter : Type := {
  add_metadata  : bool;
  get_videos    : bool;
  videos_only   : bool;
  jobs          : Z;
  namegen       : NameGenerator;
  dump_only     : bool;
  dump_json     : bool;
  extended_dump : bool;
  session       : Session
}.

(** [InstaLooter.__init__]; [template] stands for [NameGenerator(template)]. *)
Definition __init__ (add_metadata get_videos videos_only : bool) (jobs : Z)
    (template : NameGenerator) (dump_json dump_only extended_dump : bool)
    (session : Session) : InstaLooter :=
  {| add_metadata  := add_metadata;
     get_videos    := get_videos || videos_only;
     videos_only   := videos_only;
     jobs          := jobs;
     namegen       := template;
     dump_only     := dump_only;
     dump_json     := dump_json || dump_only;
     extended_dump := extended_dump;
     session       := session |}.

(** [InstaLooter.get_post_info] *)
Definition get_post_info (self : InstaLooter) (code : string) : Media :=
  shortcode_media (session self) code.

(** ** The download queue *)

(** A queue item is a media to download or [None], the poison pill. *)
Definition QueueItem : Type := option Media.
Definition Queue : Type := list QueueItem.

(** [queue.put(item)] *)
Definition put (queue : Queue) (item : QueueItem) : Queue := queue ++ [item].

(** ** Filling the queue *)

(** [list.remove(x)]: drops the first element that is [x] or equal ([==]) to
    [x]; [None] is the [ValueError] Python raises when there is none. *)
Fixpoint remove (x : Media) (l : list Media) : option (list Media) :=
  match l with
  | [] => None
  | y :: l' =>
      if media_eqb y x then Some l'
      else match remove x l' with
           | Some r => Some (y :: r)
           | None => None
           end
  end.

(** The loop over the copy [edges[:]] that removes from [edges] every child
    failing the condition. *)
Fixpoint prune (condition : Media -> bool) (snapshot es : list Media)
    : Result (list Media) :=
  match snapshot with
  | [] => Ok es
  | sidecar :: snapshot' =>
      if negb (condition sidecar) then
        match remove sidecar es with
        | Some es' => prune condition snapshot' es'
        | None => Raise (ValueError "list.remove(x): x not in list")
        end
      else prune condition snapshot' es
  end.

(** The children the loop leaves in a list of children. *)
Definition pruned (condition : Media -> bool) (es : list Media)
    : list Media :=
  match prune condition es es with
  | Ok kept => kept
  | Raise _ => es
  end.

(** The condition gives one answer for children of the list that are equal
    as dictionaries. *)
Definition respects (condition : Media -> bool) (es : list Media) : Prop :=
  forall x y, In x es -> In y es -> media_eqb x y = true ->
              condition x = condition y.

(** What [_fill_media_queue] leaves behind: the queue, the number of queued
    medias it returns, and the part of the iterator it did not consume. *)
Record Filled : Type := {
  queue_of      : Queue;
  medias_queued : Z;
  medias_left   : list Media
}.

Definition is_nil {A : Type} (l : list A) : bool :=
  match l with [] => true | _ => false end.

(** The condition created from the looter's flags when none is given. *)
Definition default_condition (self : InstaLooter) : Media -> bool :=
  if videos_only self then fun media => is_video media
  else if negb (get_videos self) then fun media => negb (is_video media)
  else fun _ => true.

(** [media_count is not None and medias_queued >= media_count] *)
Definition count_reached (media_count : option Z) (medias_queued : Z) : bool :=
  match media_count with
  | Some k => k <=? medias_queued
  | None => false
  end.

(** The [for media in filter(condition, medias_iter)] loop. *)
Fixpoint fill_loop (self : InstaLooter) (destination : FS)
    (media_count : option Z) (new_only : bool) (condition : Media -> bool)
    (medias_iter : list Media) (queue : Queue) (medias_queued : Z)
    : Result Filled :=
  match medias_iter with
  | [] => Ok {| queue_of := queue; medias_queued := medias_queued;
                medias_left := [] |}
  | media :: medias_iter' =>
      if negb (condition media) then
        (* dropped by [filter] *)
        fill_loop self destination media_count new_only condition
                  medias_iter' queue medias_queued
      else
        (* Check if the whole post info is required *)
        let media :=
          if needs_extended (namegen self) media
             || negb (String.eqb (typename media) GraphImage)
          then get_post_info self (shortcode media)
          else media in
        (* Check that sidecar children fit the condition *)
        match (if String.eqb (typename media) GraphSidecar
               then prune condition (edges media) (edges media)
               else Ok (edges media)) with
        | Raise e => Raise e
        | Ok es =>
            let media := set_edges media es in
            if String.eqb (typename media) GraphSidecar && is_nil es then
              (* continue *)
              fill_loop self destination media_count new_only condition
                        medias_iter' queue medias_queued
            else if fs_exists destination (file (namegen self) media)
                    && new_only then
              (* break *)
              Ok {| queue_of := queue; medias_queued := medias_queued;
                    medias_left := medias_iter' |}
            else
              let queue := put queue (Some media) in
              let medias_queued := medias_queued + 1 in
              if count_reached media_count medias_queued then
                (* break *)
                Ok {| queue_of := queue; medias_queued := medias_queued;
                      medias_left := medias_iter' |}
              else
                fill_loop self destination media_count new_only condition
                          medias_iter' queue medias_queued
        end
  end.

(** [InstaLooter._fill_media_queue] *)
Definition _fill_media_queue (self : InstaLooter) (queue : Queue)
    (destination : FS) (medias_iter : list Media) (media_count : option Z)
    (new_only : bool) (condition : option (Media -> bool)) : Result Filled :=
  let condition :=
    match condition with
    | None => default_condition self
    | Some c => c
    end in
  fill_loop self destination media_count new_only condition
            medias_iter queue 0.

(** The induction principle of [Media] that reaches the children. *)
Fixpoint Media_nested_ind (P : Media -> Prop)
    (step : forall t v s f es, Forall P es -> P (mkMedia t v s f es))
    (m : Media) {struct m} : P m :=
  match m with
  | mkMedia t v s f es =>
      step t v s f es
        ((fix children (l : list Media) : Forall P l :=
            match l with
            | [] => Forall_nil P
            | x :: l' => Forall_cons x (Media_nested_ind P step x) (children l')
            end) es)
  end.


(** *** The loop body, item by item

    The three definitions below name the stages of one turn of the loop;
    [fill_loop_cons] shows that [fill_loop] goes through them. *)

(** The record the loop carries on with after the refetch test. *)
Definition refetched (self : InstaLooter) (media : Media) : Media :=
  if needs_extended (namegen self) media
     || negb (String.eqb (typename media) GraphImage)
  then get_post_info self (shortcode media)
  else media.

(** The record a turn of the loop would put on the queue, if any: [None] when
    [filter] drops the item or when it is a sidecar left without children. *)
Definition candidate (self : InstaLooter) (condition : Media -> bool)
    (media : Media) : option Media :=
  if condition media then
    let media := refetched self media in
    if String.eqb (typename media) GraphSidecar then
      let es := pruned condition (edges media) in
      if is_nil es then None else Some (set_edges media es)
    else Some media
  else None.

(** [destination.exists(self.namegen.file(media))] *)
Definition already_there (self : InstaLooter) (destination : FS)
    (media : Media) : bool :=
  fs_exists destination (file (namegen self) media).

(** The records the turns of the loop would queue for a run of items. *)
Fixpoint candidates (self : InstaLooter) (condition : Media -> bool)
    (medias : list Media) : list Media :=
  match medias with
  | [] => []
  | media :: medias' =>
      match candidate self condition media with
      | Some m => m :: candidates self condition medias'
      | None => candidates self condition medias'
      end
  end.

(** ** Traces and the monad of [download] *)

Definition Worker : Type := nat.

Inductive Event : Type :=
| OpenFs (url : string) (create : bool)  (* fs.open_fs(url, create=create) *)
| CloseFs (fs : nat)                     (* destination.close() *)
| Warn (msg : string)                    (* warnings.warn(msg) *)
| Start (w : Worker)                     (* worker.start() *)
| Join (w : Worker)                      (* worker.join() *)
| Run                                    (* worker.run(), in the caller's thread *)
| AtExit                                 (* atexit.register(...) *)
| PbarInit                               (* pbar_cls(it), set_maximum, set_lock *)
| PbarSetMaximum (n : Z)                 (* dlpbar.set_maximum(n) *)
| PbarFinish.                            (* pbar.finish() *)

Definition Trace : Type := list Event.

(** A computation reads the trace so far and answers a value or an exception,
    with the trace extended by what it did. *)
Definition M (A : Type) : Type := Trace -> Result A * Trace.

Definition ret {A : Type} (a : A) : M A := fun tr => (Ok a, tr).

Definition bind {A B : Type} (m : M A) (k : A -> M B) : M B :=
  fun tr =>
    match m tr with
    | (Ok a, tr') => k a tr'
    | (Raise e, tr') => (Raise e, tr')
    end.

Definition emit (e : Event) : M unit := fun tr => (Ok tt, tr ++ [e]).

Definition raise {A : Type} (e : Exn) : M A := fun tr => (Raise e, tr).

Definition lift {A : Type} (r : Result A) : M A := fun tr => (r, tr).

Definition when (b : bool) (m : M unit) : M unit := if b then m else ret tt.

Notation "x <- m ;; k" := (bind m (fun x => k))
  (at level 61, m at next level, right associativity).
Notation "m ;;; k" := (bind m (fun _ => k))
  (at level 61, right associativity).

(** ** Progress bars *)

(** A class handed over as [pgpbar_cls] or [dlpbar_cls]. *)
Record PbarCls : Type := {
  is_progress_bar : bool   (* issubclass(pbar_cls, ProgressBar) *)
}.

(** [InstaLooter._init_pbar] *)
Definition _init_pbar (pbar_cls : option PbarCls) : M unit :=
  match pbar_cls with
  | Some cls =>
      if negb (is_progress_bar cls) then
        raise (TypeError "pbar must implement the ProgressBar interface !")
      else emit PbarInit
  | None => ret tt
  end.

Definition is_not_None {A : Type} (o : option A) : bool :=
  match o with Some _ => true | None => false end.

(** ** The destination *)

(** What a caller may hand over as [destination]. *)
Inductive Destination : Type :=
| DestBytes (url : string)   (* six.binary_type, holding the text [url] *)
| DestText (url : string)    (* six.text_type *)
| DestFS (fs : FS)           (* an FS instance *)
| DestOther.                 (* anything else *)

(** The time frame of a download. *)
Definition Timeframe : Type := (option Z * option Z)%type.

(** What lies outside this module when [download] runs. As for the session,
    the functions are followed along the runs in which [fs.open_fs] opens
    the filesystem it is asked for and the pages come. *)
Record Outside : Type := {
  open_fs  : string -> bool -> FS;             (* fs.open_fs *)
  _medias  : option Timeframe -> list Media;   (* self._medias(iter(self.pages()), timeframe) *)
  is_alive : Worker -> bool                    (* w.is_alive(), when polled *)
}.

(** [InstaLooter._init_destfs] *)
Definition _init_destfs (out : Outside) (destination : Destination)
    (create : bool) : M (FS * bool) :=
  match destination with
  | DestBytes url | DestText url =>
      emit (OpenFs url create) ;;;
      ret (open_fs out url create, true)
  | DestFS fs => ret (fs, false)
  | DestOther => raise (TypeError "<destination> must be a FS URL or FS instance.")
  end.

(** ** Workers *)

(** [six.moves.range(n)] *)
Definition range (n : Z) : list nat := seq 0 (Z.to_nat n).

(** The loop of [_init_workers]: one [InstaDownloader] per turn, started and
    appended. *)
Fixpoint init_loop (turns : list nat) (workers : list Worker)
    : M (list Worker) :=
  match turns with
  | [] => ret workers
  | i :: turns' =>
      emit (Start i) ;;;
      init_loop turns' (workers ++ [i])
  end.

(** [InstaLooter._init_workers]; the progress bar and the destination are
    handed to every [InstaDownloader] it creates. *)
Definition _init_workers (self : InstaLooter) (pbar : option PbarCls)
    (destination : FS) : M (list Worker * Queue) :=
  workers <- init_loop (range (jobs self)) [] ;;
  ret (workers, []).

(** [InstaLooter._poison_workers] *)
Fixpoint _poison_workers (workers : list Worker) (queue : Queue) : Queue :=
  match workers with
  | [] => queue
  | _ :: workers' => _poison_workers workers' (put queue None)
  end.

Fixpoint join_loop (workers : list Worker) : M unit :=
  match workers with
  | [] => ret tt
  | w :: workers' => emit (Join w) ;;; join_loop workers'
  end.

(** [InstaLooter._join_workers], as a sequence of calls. *)
Definition _join_workers (out : Outside) (workers : list Worker) : M unit :=
  when (existsb (is_alive out) workers) (join_loop workers).

(** ** The two entry points *)

(** [InstaLooter.download] *)
Definition download (out : Outside) (self : InstaLooter)
    (destination : Destination) (condition : option (Media -> bool))
    (media_count : option Z) (timeframe : option Timeframe) (new_only : bool)
    (pgpbar_cls dlpbar_cls : option PbarCls) : M Z :=
  (* Open the destination filesystem *)
  opened <- _init_destfs out destination true ;;
  let (destination, close_destination) := opened in
  (* Iterators over the pages and the medias, with optional progress bars *)
  _init_pbar pgpbar_cls ;;;
  let medias_iterator := _medias out timeframe in
  _init_pbar dlpbar_cls ;;;
  (* Start a group of workers *)
  started <- _init_workers self
               (if is_not_None dlpbar_cls then dlpbar_cls else None)
               destination ;;
  let (workers, queue) := started in
  emit AtExit ;;;
  (* Queue all medias *)
  filled <- lift (_fill_media_queue self queue destination medias_iterator
                                    media_count new_only condition) ;;
  let queue := queue_of filled in
  let medias_queued := medias_queued filled in
  when (is_not_None pgpbar_cls) (emit PbarFinish) ;;;
  when (is_not_None dlpbar_cls) (emit (PbarSetMaximum medias_queued)) ;;;
  (* If no medias were queued, issue a warning *)
  when (medias_queued =? 0) (emit (Warn "No medias found.")) ;;;
  (* Add poison pills to the queue and wait for workers to finish *)
  let queue := _poison_workers workers queue in
  _join_workers out workers ;;;
  when (is_not_None dlpbar_cls) (emit PbarFinish) ;;;
  when close_destination (emit (CloseFs (fs_id destination))) ;;;
  ret medias_queued.

(** A looter targeting a specific post. *)
Record PostLooter : Type := {
  looter : InstaLooter;
  code   : string
}.

(** [PostLooter.info] *)
Definition info (self : PostLooter) : Media :=
  get_post_info (looter self) (code self).

(** [PostLooter.medias], without a time frame. *)
Definition post_medias (self : PostLooter) : list Media := [info self].

(** [PostLooter.download] *)
Definition post_download (out : Outside) (self : PostLooter)
    (destination : Destination) (condition : option (Media -> bool))
    (media_count : option Z) (new_only : bool) : M Z :=
  opened <- _init_destfs out destination true ;;
  let (destination, close_destination) := opened in
  let queue : Queue := [] in
  filled <- lift (_fill_media_queue (looter self) queue destination
                                    (post_medias self) media_count new_only
                                    condition) ;;
  let queue := put (queue_of filled) None in
  emit Run ;;;
  ret (medias_queued filled).

(** ** Worker threads and [join]

    [_join_workers] reaches the threads started by [_init_workers] through
    two calls, [w.is_alive()] and [w.join()]. The calls it makes, each
    depending on the answers to the ones before, form a tree. *)

Inductive Calls : Type :=
| Return_                                   (* the function returns *)
| IsAlive (w : Worker) (k : bool -> Calls)  (* [w.is_alive()], then on with
                                               its answer *)
| JoinCall (w : Worker) (k : Calls).        (* [w.join()], then on *)

(** [for worker in workers: worker.join()] *)
Fixpoint join_calls (workers : list Worker) : Calls :=
  match workers with
  | [] => Return_
  | w :: workers' => JoinCall w (join_calls workers')
  end.

(** [any(w.is_alive() for w in workers)], going on with [yes] at the first
    answer [True] and with [no] when the workers run out. *)
Fixpoint any_alive_calls (workers : list Worker) (yes no : Calls) : Calls :=
  match workers with
  | [] => no
  | w :: workers' =>
      IsAlive w (fun alive => if alive then yes
                              else any_alive_calls workers' yes no)
  end.

(** [InstaLooter._join_workers], as the calls it makes. *)
Definition _join_workers_calls (workers : list Worker) : Calls :=
  any_alive_calls workers (join_calls workers) Return_.

(** The calls made in the monad of [download], [is_alive] answering as the
    outside tells; [perform_join_calls] shows that [_join_workers] makes
    the calls of [_join_workers_calls]. *)
Fixpoint perform (out : Outside) (calls : Calls) : M unit :=
  match calls with
  | Return_ => ret tt
  | IsAlive w k => perform out (k (is_alive out w))
  | JoinCall w k => emit (Join w) ;;; perform out k
  end.

(** Worker [i] exits. *)
Fixpoint exited (i : nat) (alive : list bool) : list bool :=
  match alive, i with
  | [], _ => []
  | _ :: alive', O => false :: alive'
  | a :: alive', S i' => a :: exited i' alive'
  end.

(** The caller and the threads, side by side: what the caller has left to
    do, and the [is_alive] flag of every worker. *)
Inductive thread_step : Calls * list bool -> Calls * list bool -> Prop :=
| worker_exits calls alive i :
    (* a thread ends; there is no step bringing it back *)
    nth_error alive i = Some true ->
    thread_step (calls, alive) (calls, exited i alive)
| is_alive_answers w k alive answer :
    nth_error alive w = Some answer ->
    thread_step (IsAlive w k, alive) (k answer, alive)
| join_returns w k alive :
    (* [w.join()] returns only for a thread that has ended *)
    nth_error alive w = Some false ->
    thread_step (JoinCall w k, alive) (k, alive).

Inductive thread_steps : Calls * list bool -> Calls * list bool -> Prop :=
| thread_steps_refl s : thread_steps s s
| thread_steps_step s1 s2 s3 :
    thread_step s1 s2 -> thread_steps s2 s3 -> thread_steps s1 s3.

(** The flags right after [_init_workers]: every started thread is alive. *)
Definition all_alive (workers : list Worker) : list bool :=
  map (fun _ => true) workers.

(** What holds all along [_join_workers] beside [n] workers: the caller is
    somewhere in [any] or in the loop, about to turn to worker [i], and the
    workers before [i] have ended. *)
Definition join_inv (n : nat) (s : Calls * list bool) : Prop :=
  List.length (snd s) = n
  /\ exists i,
       (i <= n)%nat
       /\ Forall (eq false) (firstn i (snd s))
       /\ (fst s = any_alive_calls (seq i (n - i)) (join_calls (seq 0 n))
                                   Return_
           \/ fst s = join_calls (seq i (n - i))).

(** What a valid progress bar argument is: none, or a [ProgressBar] class. *)
Definition pbar_ok (pbar_cls : option PbarCls) : Prop :=
  forall cls, pbar_cls = Some cls -> is_progress_bar cls = true.

(** ** Concrete runs *)

(** The five records of the reference scenario, with post pages that serve
    the same records and a destination that already holds [img2]. *)
Module Scenario.

Definition image (code : string) : Media := mkMedia GraphImage false code [] [].
Definition video (code : string) : Media := mkMedia GraphVideo true code [] [].

Definition img1 : Media := image "img1".
Definition vid1 : Media := video "vid1".
Definition img2 : Media := image "img2".
Definition img3 : Media := image "img3".
Definition child_img : Media := image "child_img".
Definition child_vid : Media := video "child_vid".
Definition sidecar1 : Media :=
  mkMedia GraphSidecar false "sidecar1" [] [child_img; child_vid].

Definition medias : list Media := [img1; vid1; img2; img3; sidecar1].

Definition posts : Session :=
  {| shortcode_media := fun code =>
       match find (fun m => String.eqb (shortcode m) code) medias with
       | Some m => m
       | None => image code
       end |}.

(** A name generator writing each media under its shortcode; [needs] tells
    which records its template wants in detailed form. *)
Definition names (needs : Media -> bool) : NameGenerator :=
  {| needs_extended := needs; file := shortcode |}.

(** A destination holding exactly the file [name]. *)
Definition holding (name : string) : FS :=
  {| fs_id := 0; fs_exists := String.eqb name |}.

Definition images_only (media : Media) : bool := negb (is_video media).

Definition the_looter (needs : Media -> bool) : InstaLooter :=
  __init__ false false false 2 (names needs) false false false posts.

End Scenario.

(** A listing whose summaries differ from the post pages: the page of a post
    carries a ["location"] key that the summary lacks. *)
Module Listing.

Definition summary_image : Media :=
  mkMedia GraphImage false "p1" [("id", PyStr "1")] [].
Definition summary_video : Media :=
  mkMedia GraphVideo true "p2" [("id", PyStr "2")] [].

Definition detail (media : Media) : Media :=
  mkMedia (typename media) (is_video media) (shortcode media)
          (fields media ++ [("location", PyStr "Paris")]) (edges media).

Definition posts : Session :=
  {| shortcode_media := fun code =>
       if String.eqb code "p1" then detail summary_image
       else detail summary_video |}.

Definition names : NameGenerator :=
  {| needs_extended := fun _ => false; file := shortcode |}.

Definition nothing : FS := {| fs_id := 0; fs_exists := fun _ => false |}.


Definition the_looter (extended_dump : bool) : InstaLooter :=
  __init__ false true false 1 names true false extended_dump posts.

Definition outside (medias : list Media) : Outside :=
  {| open_fs := fun _ _ => nothing;
     _medias := fun _ => medias;
     is_alive := fun _ => false |}.

End Listing.

(** ** The shortcuts of [download] *)



(** ** Sessions and the cookie file

    The class methods touch one thing of a [requests] session, its cookie
    jar, and one thing of the cache filesystem, the cookie file. *)

Record Cookie : Type := {
  ck_domain  : string;
  ck_name    : string;
  ck_path    : string;
  ck_value   : string;
  ck_expires : option Z;
  ck_discard : bool
}.

(** The cookies of a session, one for a domain, a path and a name. The order
    is not that in which Python goes through a jar; nothing below depends on
    it. *)
Definition CookieJar : Type := list Cookie.

(** The cache filesystem: the cookies written in [cookies.txt], when the
    file is there. *)
Definition CacheFS : Type := option (list Cookie).

(** [cookie.is_expired(now)] *)
Definition is_expired (now : Z) (ck : Cookie) : bool :=
  match ck_expires ck with
  | Some t => t <=? now
  | None => false
  end.

(** Two cookies that take the same place in a jar. *)
Definition same_place (a b : Cookie) : bool :=
  String.eqb (ck_domain a) (ck_domain b)
  && String.eqb (ck_path a) (ck_path b)
  && String.eqb (ck_name a) (ck_name b).

(** [jar.set_cookie(ck)] *)
Fixpoint set_cookie (ck : Cookie) (jar : CookieJar) : CookieJar :=
  match jar with
  | [] => [ck]
  | c :: jar' => if same_place c ck then ck :: jar' else c :: set_cookie ck jar'
  end.

(** A cookie to drop at the end of a session: marked so, or without an
    expiry date. *)
Definition to_discard (ck : Cookie) : bool :=
  ck_discard ck
  || match ck_expires ck with
     | Some _ => false
     | None => true
     end.

(** [jar.load()]: the cookies of the file are set one after the other, those
    to discard and those expired being skipped. *)
Fixpoint load (now : Z) (saved : list Cookie) (jar : CookieJar) : CookieJar :=
  match saved with
  | [] => jar
  | ck :: saved' =>
      load now saved'
           (if to_discard ck || is_expired now ck then jar
            else set_cookie ck jar)
  end.

(** [InstaLooter._init_session], at time [now]; [None] for [session] is the
    default argument, and then a new session is made. *)
Definition _init_session (now : Z) (cachefs : CacheFS)
    (session : option CookieJar) : CookieJar :=
  let session : CookieJar :=
    match session with
    | None => []                (* requests.Session() *)
    | Some jar => jar
    end in
  (* session.cookies = LWPCookieJar(cachefs.getsyspath(_COOKIE_FILE)) *)
  let session : CookieJar := [] in
  (* session.cookies.load(), an IOError being passed over *)
  let session : CookieJar :=
    match cachefs with
    | Some saved => load now saved session
    | None => session
    end in
  (* session.cookies.clear_expired_cookies() *)
  filter (fun ck => negb (is_expired now ck)) session.

(** [InstaLooter._sessionid] *)
Definition _sessionid (now : Z) (cachefs : CacheFS)
    (session : option CookieJar) : option string :=
  let session := _init_session now cachefs session in
  match find (fun ck => String.eqb (ck_domain ck) "www.instagram.com"
                        && String.eqb (ck_name ck) "sessionid"
                        && String.eqb (ck_path ck) "/") session with
  | Some ck => Some (ck_value ck)
  | None => None
  end.

(** [InstaLooter._logged_in] *)
Definition _logged_in (now : Z) (cachefs : CacheFS)
    (session : option CookieJar) : bool :=
  is_not_None (_sessionid now cachefs session).

(** [InstaLooter._logout]: the tokens posted to the logout page, and the
    cache filesystem it leaves. *)
Definition _logout (now : Z) (cachefs : CacheFS)
    (session : option CookieJar) : list string * CacheFS :=
  let sessionid := _sessionid now cachefs session in
  let posted :=
    match sessionid with
    | Some token => [token]     (* session.post(url, data={...: sessionid}) *)
    | None => []
    end in
  let cachefs : CacheFS :=
    if is_not_None cachefs      (* cachefs.exists(_COOKIE_FILE) *)
    then None                   (* cachefs.remove(_COOKIE_FILE) *)
    else cachefs in
  (posted, cachefs).

(** ** The looters of a profile and of a post *)

Record ProfileLooter : Type := {
  profile_looter : InstaLooter;
  _username      : string;
  _owner_id      : option string
}.

(** [ProfileLooter.__init__] *)
Definition profile_init (username : string) (base : InstaLooter)
    : ProfileLooter :=
  {| profile_looter := base; _username := username; _owner_id := None |}.

(** The iterators [ProfileLooter.pages] hands out. *)
Inductive ProfilePages : Type :=
| FromUsername (username owner_id : string)  (* ProfileIterator.from_username *)
| FromOwner (owner_id : string).             (* ProfileIterator(owner_id, ...) *)

(** [ProfileLooter.pages]. [from_username] is the owner id that
    [ProfileIterator.from_username] finds for a name, [None] when it raises.
    The answer holds the iterator, the looter afterwards and the names looked
    up on the way; [None] is the exception of [from_username]. *)
Definition profile_pages (from_username : string -> option string)
    (self : ProfileLooter)
    : option (ProfilePages * ProfileLooter * list string) :=
  match _owner_id self with
  | None =>
      match from_username (_username self) with
      | Some owner =>
          Some (FromUsername (_username self) owner,
                {| profile_looter := profile_looter self;
                   _username := _username self;
                   _owner_id := Some owner |},
                [_username self])
      | None => None
      end
  | Some owner => Some (FromOwner owner, self, [])
  end.

(** A post looter with the slot [_info] behind its [info] property. *)
Record PostState : Type := {
  post  : PostLooter;
  _info : option Media
}.

(** [PostLooter.__init__] *)
Definition post_init (code : string) (base : InstaLooter) : PostState :=
  {| post := {| looter := base; code := code |}; _info := None |}.

(** The [info] property, with its slot: the record, the looter afterwards
    and the shortcodes fetched on the way. *)
Definition info_property (self : PostState)
    : Media * PostState * list string :=
  match _info self with
  | None =>
      let fetched := get_post_info (looter (post self)) (code (post self)) in
      (fetched, {| post := post self; _info := Some fetched |},
       [code (post self)])
  | Some cached => (cached, self, [])
  end.

(** The exceptions of [PostLooter.medias]. *)
Inductive MediasError : Type :=
| KeyError (key : string)
| NameError (name : string)
| TimesError.                (* raised by TimedMediasIterator.get_times *)

(** [media.get(key)] and [media[key]] for the keys kept in [fields]. *)
Definition dict_get (key : string) (media : Media) : option PyValue :=
  match find (fun kv => String.eqb (fst kv) key) (fields media) with
  | Some kv => Some (snd kv)
  | None => None
  end.

Definition dict_item (key : string) (media : Media)
    : MediasError + PyValue :=
  match dict_get key media with
  | Some v => inr v
  | None => inl (KeyError key)
  end.

(** [PostLooter.medias], run to its end. [get_times] is
    [TimedMediasIterator.get_times] ([None] when it raises) and [truthy]
    the truth value of what a key holds. The module binds no name
    [media_date]. *)
Definition post_medias_within (get_times : Timeframe -> option (Z * Z))
    (truthy : PyValue -> bool) (self : PostLooter)
    (timeframe : option Timeframe) : MediasError + list Media :=
  let info := info self in
  match timeframe with
  | Some frame =>
      match get_times frame with
      | None => inl TimesError
      | Some (start, end_) =>
          (* timestamp = info.get("taken_at_timestamp") or info["media"] *)
          match (match dict_get "taken_at_timestamp" info with
                 | Some v => if truthy v then inr v else dict_item "media" info
                 | None => dict_item "media" info
                 end) with
          | inl e => inl e
          | inr timestamp =>
              (* if not (start >= media_date >= end) *)
              inl (NameError "media_date")
          end
      end
  | None => inr [info]
  end.

(** Two children that are equal as dictionaries and differ by the order of
    their keys, and a condition that looks at this order. *)
Module Twins.

Definition id_first : Media :=
  mkMedia GraphImage false "c1" [("id", PyStr "7"); ("alt", PyStr "a")] [].
Definition id_last : Media :=
  mkMedia GraphImage false "c1" [("alt", PyStr "a"); ("id", PyStr "7")] [].

(** [lambda media: list(media)[0] == "id"], on the remaining keys *)
Definition starts_with_id (media : Media) : bool :=
  match fields media with
  | (key, _) :: _ => String.eqb key "id"
  | [] => false
  end.

End Twins.

(** A post page that reports an image where the listing had a video. *)
Module Mismatch.

Definition page : Media := mkMedia GraphImage false "p3" [] [].

Definition posts : Session := {| shortcode_media := fun _ => page |}.

Definition the_looter : InstaLooter :=
  __init__ false false true 1 Listing.names false false false posts.

End Mismatch.

(** * Properties *)

(** ** Dictionary equality decides equality *)

Lemma value_eqb_refl (v : PyValue) : value_eqb v v = true.
Proof.
  destruct v as [s|z|[]|]; cbn; try reflexivity.
  - apply String.eqb_refl.
  - apply Z.eqb_refl.
Qed.

Lemma binding_in key v (l : list (string * PyValue)) :
  In (key, v) l -> exists v', binding key l = Some v'.
Proof.
  induction l as [|[k w] l IH]; intros Hin; [destruct Hin|]. cbn.
  destruct (String.eqb k key) eqn:Hk; [eauto|].
  destruct Hin as [E|Hin]; [|auto].
  injection E as -> _. rewrite String.eqb_refl in Hk. discriminate.
Qed.

Lemma bound_alike_refl (keys l : list (string * PyValue)) :
  incl keys l -> bound_alike keys l l = true.
Proof.
  intros Hincl. apply forallb_forall. intros [key v] Hin.
  destruct (binding_in key v l (Hincl _ Hin)) as [v' Hv']. cbn [fst].
  rewrite Hv'. apply value_eqb_refl.
Qed.

Lemma fields_eqb_refl (l : list (string * PyValue)) : fields_eqb l l = true.
Proof.
  unfold fields_eqb. rewrite bound_alike_refl; [reflexivity | apply incl_refl].
Qed.

(** A dictionary is equal to itself. *)
Lemma media_eqb_refl (a : Media) : media_eqb a a = true.
Proof.
  induction a as [t v s f es IH] using Media_nested_ind. cbn.
  rewrite !String.eqb_refl, Bool.eqb_reflx, fields_eqb_refl. cbn.
  induction IH as [|x l Hx _ IHl]; [reflexivity|].
  rewrite Hx, IHl. reflexivity.
Qed.


(** ** Pruning a sidecar *)

(** Removing a child that is in the list succeeds, and takes away the child
    or an equal one before it. *)
Lemma remove_in_front (x : Media) (rest : list Media) :
  forall front,
  exists front',
    remove x (front ++ x :: rest) = Some (front' ++ rest)
    /\ List.length front' = List.length front
    /\ incl front' (front ++ [x]).
Proof.
  induction front as [|y front IH]; cbn.
  - rewrite media_eqb_refl. exists []. cbn. repeat split. apply incl_nil_l.
  - destruct (media_eqb y x).
    + exists (front ++ [x]). rewrite <- app_assoc. cbn.
      repeat split.
      * rewrite length_app. cbn. lia.
      * apply incl_tl, incl_refl.
    + destruct IH as [front' [-> [Hlen Hincl]]].
      exists (y :: front'). cbn. repeat split.
      * rewrite Hlen. reflexivity.
      * intros z [<-|Hz]; [left; reflexivity | right; apply Hincl, Hz].
Qed.

Lemma prune_front (condition : Media -> bool) (snapshot : list Media) :
  forall front,
  exists remaining,
    prune condition snapshot (front ++ snapshot) = Ok remaining
    /\ List.length remaining
       = (List.length front + List.length (filter condition snapshot))%nat
    /\ incl remaining (front ++ snapshot).
Proof.
  induction snapshot as [|x snapshot IH]; intros front; cbn [prune filter].
  - exists front. rewrite app_nil_r. cbn. repeat split; [lia | apply incl_refl].
  - destruct (condition x) eqn:Hx; cbn [negb].
    + destruct (IH (front ++ [x])) as [remaining [Hleft [Hlen Hincl]]].
      rewrite <- app_assoc in Hleft, Hincl. cbn in Hleft, Hincl.
      exists remaining. split; [exact Hleft|]. split; [|exact Hincl].
      rewrite Hlen, length_app. cbn. lia.
    + destruct (remove_in_front x snapshot front)
        as [front' [-> [Hlen' Hincl']]].
      destruct (IH front') as [remaining [Hleft [Hlen Hincl]]].
      exists remaining. split; [exact Hleft|]. split; [lia|].
      intros z Hz. apply Hincl in Hz. apply in_app_or in Hz.
      destruct Hz as [Hz|Hz].
      * apply Hincl' in Hz. apply in_app_or in Hz. apply in_or_app.
        destruct Hz as [Hz|[<-|[]]]; [left; exact Hz | right; left; reflexivity].
      * apply in_or_app. right. right. exact Hz.
Qed.

(** The in-place loop never raises. *)
Lemma prune_pruned (condition : Media -> bool) (es : list Media) :
  prune condition es es = Ok (pruned condition es).
Proof.
  unfold pruned.
  destruct (prune_front condition es []) as [remaining [Hleft _]].
  cbn [app] in Hleft. rewrite Hleft. reflexivity.
Qed.

(** It leaves as many children as fit the condition, all of them children
    of the list. *)
Lemma pruned_length (condition : Media -> bool) (es : list Media) :
  List.length (pruned condition es) = List.length (filter condition es).
Proof.
  destruct (prune_front condition es []) as [remaining [Hleft [Hlen _]]].
  cbn [app] in Hleft. rewrite prune_pruned in Hleft.
  injection Hleft as ->. exact Hlen.
Qed.

Lemma pruned_incl (condition : Media -> bool) (es : list Media) :
  incl (pruned condition es) es.
Proof.
  destruct (prune_front condition es []) as [remaining [Hleft [_ Hincl]]].
  cbn [app] in Hleft. rewrite prune_pruned in Hleft.
  injection Hleft as ->. exact Hincl.
Qed.


Lemma remove_skip (condition : Media -> bool) (x : Media) :
  condition x = false ->
  forall kept rest,
    Forall (fun y => condition y = true
                     /\ (media_eqb y x = true -> condition y = condition x))
           kept ->
    remove x (kept ++ x :: rest) = Some (kept ++ rest).
Proof.
  intros Hx kept rest Hkept.
  induction Hkept as [|y kept [Hy Hsame] _ IH]; cbn.
  - rewrite media_eqb_refl; reflexivity.
  - destruct (media_eqb y x) eqn:E.
    + rewrite (Hsame eq_refl) in Hy. congruence.
    + rewrite IH; reflexivity.
Qed.

Lemma prune_invariant (condition : Media -> bool) (es snapshot : list Media) :
  respects condition es ->
  forall kept,
    incl (kept ++ snapshot) es ->
    Forall (fun y => condition y = true) kept ->
    prune condition snapshot (kept ++ snapshot)
    = Ok (kept ++ filter condition snapshot).
Proof.
  intros Hresp.
  induction snapshot as [|x snapshot IH]; intros kept Hincl Hkept; cbn.
  - reflexivity.
  - destruct (condition x) eqn:Hx; cbn.
    + replace (kept ++ x :: snapshot) with ((kept ++ [x]) ++ snapshot)
        by (rewrite <- app_assoc; reflexivity).
      rewrite IH.
      * rewrite <- app_assoc; reflexivity.
      * rewrite <- app_assoc. exact Hincl.
      * apply Forall_app; split; [assumption | repeat constructor; assumption].
    + rewrite (remove_skip condition x Hx kept snapshot).
      * apply IH; [|assumption].
        intros z Hz. apply Hincl. apply in_app_or in Hz. apply in_or_app.
        destruct Hz as [Hz|Hz]; [left | right; right]; exact Hz.
      * apply Forall_forall. intros y Hy.
        split; [exact (proj1 (Forall_forall _ _) Hkept y Hy)|].
        apply Hresp; apply Hincl; apply in_or_app;
          [left; exact Hy | right; left; reflexivity].
Qed.

(** When the condition does not tell equal children apart, the loop leaves
    exactly the children that fit the condition, in their order. *)
Lemma pruned_filter (condition : Media -> bool) (es : list Media) :
  respects condition es ->
  pruned condition es = filter condition es.
Proof.
  intros Hresp.
  pose proof (prune_invariant condition es es Hresp [] (incl_refl _)
                              (Forall_nil _)) as H.
  cbn [app] in H. rewrite prune_pruned in H. injection H as ->. reflexivity.
Qed.

(** ** One turn of the loop *)

Lemma set_edges_same (media : Media) : set_edges media (edges media) = media.
Proof. destruct media; reflexivity. Qed.

Lemma fill_loop_cons self destination media_count new_only condition
    media rest queue n :
  fill_loop self destination media_count new_only condition
            (media :: rest) queue n
  = match candidate self condition media with
    | None =>
        fill_loop self destination media_count new_only condition rest queue n
    | Some m =>
        if already_there self destination m && new_only then
          Ok {| queue_of := queue; medias_queued := n; medias_left := rest |}
        else if count_reached media_count (n + 1) then
          Ok {| queue_of := put queue (Some m); medias_queued := n + 1;
                medias_left := rest |}
        else
          fill_loop self destination media_count new_only condition rest
                    (put queue (Some m)) (n + 1)
    end.
Proof.
  cbn [fill_loop]. unfold candidate, already_there.
  destruct (condition media); cbn [negb]; [|reflexivity].
  fold (refetched self media).
  destruct (String.eqb (typename (refetched self media)) GraphSidecar) eqn:Hside.
  - rewrite prune_pruned. cbn [set_edges typename]. rewrite Hside.
    destruct (pruned condition (edges (refetched self media))); reflexivity.
  - cbn [set_edges typename]. rewrite Hside. cbn [andb].
    fold (set_edges (refetched self media) (edges (refetched self media))).
    rewrite set_edges_same. reflexivity.
Qed.

(** ** The loop returns, and what it queues *)

Lemma fill_loop_total self destination media_count new_only condition medias :
  forall queue n, exists st,
    fill_loop self destination media_count new_only condition medias queue n
    = Ok st.
Proof.
  induction medias as [|media rest IH]; intros queue n.
  - eexists; reflexivity.
  - rewrite fill_loop_cons.
    destruct (candidate self condition media) as [m|]; [|apply IH].
    destruct (already_there self destination m && new_only);
      [eexists; reflexivity|].
    destruct (count_reached media_count (n + 1)); [eexists; reflexivity|].
    apply IH.
Qed.




(** ** What reaches the queue (C1) *)




(** ** Runs of items that neither halt the loop nor exhaust the count *)

Lemma fill_loop_app self destination media_count new_only condition rest :
  forall pre queue n,
    (forall m, In m (candidates self condition pre) ->
               already_there self destination m && new_only = false) ->
    (forall k, media_count = Some k ->
               n + Z.of_nat (List.length (candidates self condition pre)) < k) ->
    fill_loop self destination media_count new_only condition
              (pre ++ rest) queue n
    = fill_loop self destination media_count new_only condition rest
                (queue ++ map Some (candidates self condition pre))
                (n + Z.of_nat (List.length (candidates self condition pre))).
Proof.
  induction pre as [|media pre IH]; intros queue n Hnew Hcount.
  - cbn. rewrite app_nil_r, Z.add_0_r. reflexivity.
  - cbn [app]. rewrite fill_loop_cons. cbn [candidates] in *.
    destruct (candidate self condition media) as [m|].
    + rewrite (Hnew m (or_introl eq_refl)).
      assert (Hreach : count_reached media_count (n + 1) = false).
      { destruct media_count as [k|]; [|reflexivity]. cbn.
        specialize (Hcount k eq_refl). cbn [List.length] in Hcount.
        apply Z.leb_gt. lia. }
      rewrite Hreach, IH.
      * unfold put. cbn [map List.length]. rewrite <- app_assoc. cbn [app].
        f_equal. lia.
      * intros m' Hin. apply Hnew. right. exact Hin.
      * intros k Hk. specialize (Hcount k Hk). cbn [List.length] in Hcount. lia.
    + apply IH; assumption.
Qed.

(** ** The reference scenario *)

(** The post pages of the scenario serve the records of the listing, so a
    refetch changes nothing, whatever the name generator asks for. *)
Lemma scenario_refetched needs media :
  In media Scenario.medias ->
  refetched (Scenario.the_looter needs) media = media.
Proof.
  unfold refetched.
  intros [<-|[<-|[<-|[<-|[<-|[]]]]]];
    destruct (needs_extended _ _ || _); reflexivity.
Qed.

Ltac scenario_turn needs :=
  rewrite fill_loop_cons; unfold candidate;
  try rewrite (scenario_refetched needs) by (cbn; tauto);
  cbn -[fill_loop Z.add].

(** ** Stopping on the first existing media (C2) *)

(** C2, as amended. With [new_only] set, let the item at position [p] be the
    first one that passes the condition (a sidecar keeping at least one
    child) and whose file the destination already holds, the count
    [media_count], if any, being larger than the number of items accepted
    before [p]. Then the fill halts on that item: it is not queued, nothing
    after it is consumed, and the returned count is the number of items
    accepted strictly before [p]. In the scenario
    [img1, vid1, img2 (existing), img3, sidecar1] with the images-only
    condition, only [img1] is accepted. *)
Theorem fill_halts_on_first_existing :
  (forall self queue destination (C : Media -> bool) media_count pre x post mx,
     (forall m, In m (candidates self C pre) ->
                already_there self destination m = false) ->
     candidate self C x = Some mx ->
     already_there self destination mx = true ->
     (forall k, media_count = Some k ->
                Z.of_nat (List.length (candidates self C pre)) < k) ->
     _fill_media_queue self queue destination (pre ++ x :: post) media_count
                       true (Some C)
     = Ok {| queue_of := queue ++ map Some (candidates self C pre);
             medias_queued := Z.of_nat (List.length (candidates self C pre));
             medias_left := post |})
  /\ (forall needs,
        _fill_media_queue (Scenario.the_looter needs) []
                          (Scenario.holding "img2") Scenario.medias (Some 10)
                          true (Some Scenario.images_only)
        = Ok {| queue_of := [Some Scenario.img1]; medias_queued := 1;
                medias_left := [Scenario.img3; Scenario.sidecar1] |}).
Proof.
  assert (General :
    forall self queue destination (C : Media -> bool) media_count pre x post mx,
     (forall m, In m (candidates self C pre) ->
                already_there self destination m = false) ->
     candidate self C x = Some mx ->
     already_there self destination mx = true ->
     (forall k, media_count = Some k ->
                Z.of_nat (List.length (candidates self C pre)) < k) ->
     _fill_media_queue self queue destination (pre ++ x :: post) media_count
                       true (Some C)
     = Ok {| queue_of := queue ++ map Some (candidates self C pre);
             medias_queued := Z.of_nat (List.length (candidates self C pre));
             medias_left := post |}).
  { intros self queue destination C media_count pre x post mx
           Hnone Hx Hthere Hcount.
    unfold _fill_media_queue. rewrite fill_loop_app.
    - rewrite fill_loop_cons, Hx, Hthere. reflexivity.
    - intros m Hin. rewrite (Hnone m Hin). reflexivity.
    - intros k Hk. specialize (Hcount k Hk). lia. }
  split; [exact General|].
  intros needs. unfold _fill_media_queue, Scenario.medias.
  scenario_turn needs. scenario_turn needs. scenario_turn needs.
  reflexivity.
Qed.

Lemma fill_halts_on_first_existing_witness :
  _fill_media_queue (Scenario.the_looter (fun _ => false)) []
                    (Scenario.holding "img2")
                    ([Scenario.img1; Scenario.vid1]
                       ++ Scenario.img2 :: [Scenario.img3; Scenario.sidecar1])
                    None true (Some Scenario.images_only)
  = Ok {| queue_of := [Some Scenario.img1]; medias_queued := 1;
          medias_left := [Scenario.img3; Scenario.sidecar1] |}.
Proof.
  apply (proj1 fill_halts_on_first_existing
               (Scenario.the_looter (fun _ => false)) []
               (Scenario.holding "img2") Scenario.images_only None
               [Scenario.img1; Scenario.vid1] Scenario.img2
               [Scenario.img3; Scenario.sidecar1] Scenario.img2).
  - intros m [<-|[]]; reflexivity.
  - reflexivity.
  - reflexivity.
  - intros k Hk; discriminate Hk.
Defined.

(** C2, as stated, fails: the first item whose file exists is [vid1], at
    position 1; the images-only condition drops it before the existence
    test, the fill goes on and queues [img3], and the count is 2 where one
    item is accepted before position 1. *)
Lemma fill_passes_filtered_existing :
  already_there (Scenario.the_looter (fun _ => false))
                (Scenario.holding "vid1") Scenario.img1 = false
  /\ already_there (Scenario.the_looter (fun _ => false))
                   (Scenario.holding "vid1") Scenario.vid1 = true
  /\ candidates (Scenario.the_looter (fun _ => false)) Scenario.images_only
                [Scenario.img1] = [Scenario.img1]
  /\ _fill_media_queue (Scenario.the_looter (fun _ => false)) []
                       (Scenario.holding "vid1")
                       [Scenario.img1; Scenario.vid1; Scenario.img3]
                       None true (Some Scenario.images_only)
     = Ok {| queue_of := [Some Scenario.img1; Some Scenario.img3];
             medias_queued := 2; medias_left := [] |}.
Proof. repeat split. Qed.

(** When every item that passes from some point on is already there, as in
    a listing delivered newest first to a destination holding the older
    medias, a fill with [new_only] queues nothing from that point on. *)
Lemma fill_loop_all_existing self destination media_count condition medias :
  forall queue n,
    (forall m, In m (candidates self condition medias) ->
               already_there self destination m = true) ->
    exists left,
      fill_loop self destination media_count true condition medias queue n
      = Ok {| queue_of := queue; medias_queued := n; medias_left := left |}.
Proof.
  induction medias as [|media rest IH]; intros queue n Hall.
  - exists []. reflexivity.
  - rewrite fill_loop_cons. cbn [candidates] in Hall.
    destruct (candidate self condition media) as [m|].
    + rewrite (Hall m (or_introl eq_refl)). exists rest. reflexivity.
    + apply IH. exact Hall.
Qed.

Lemma fill_monotone_count self queue destination (C : Media -> bool)
    media_count fresh old :
  (forall m, In m (candidates self C fresh) ->
             already_there self destination m = false) ->
  (forall m, In m (candidates self C old) ->
             already_there self destination m = true) ->
  (forall k, media_count = Some k ->
             Z.of_nat (List.length (candidates self C fresh)) < k) ->
  exists left,
    _fill_media_queue self queue destination (fresh ++ old) media_count true
                      (Some C)
    = Ok {| queue_of := queue ++ map Some (candidates self C fresh);
            medias_queued := Z.of_nat (List.length (candidates self C fresh));
            medias_left := left |}.
Proof.
  intros Hfresh Hold Hcount.
  unfold _fill_media_queue. rewrite fill_loop_app.
  - apply fill_loop_all_existing. exact Hold.
  - intros m Hin. rewrite (Hfresh m Hin). reflexivity.
  - intros k Hk. specialize (Hcount k Hk). lia.
Qed.

(** ** Stopping at [media_count] (C3) *)

(** The [k]-th candidate of a sequence splits it. *)
Lemma candidates_split self condition medias :
  forall k,
    (1 <= k)%nat ->
    (k <= List.length (candidates self condition medias))%nat ->
    exists pre x post mx,
      medias = pre ++ x :: post
      /\ candidate self condition x = Some mx
      /\ firstn k (candidates self condition medias)
         = candidates self condition pre ++ [mx].
Proof.
  induction medias as [|media rest IH]; intros k Hk Hlen; cbn in Hlen.
  - lia.
  - cbn [candidates] in *.
    destruct (candidate self condition media) as [m|] eqn:Hcand.
    + destruct k as [|[|k]]; [lia| |].
      * exists [], media, rest, m. cbn. auto.
      * cbn [List.length] in Hlen.
        destruct (IH (S k)) as [pre [x [post [mx [-> [Hx Hfirst]]]]]];
          [lia | lia |].
        exists (media :: pre), x, post, mx. cbn [app candidates].
        rewrite Hcand. split; [reflexivity|]. split; [exact Hx|].
        change (firstn (S (S k)) (m :: candidates self condition (pre ++ x :: post)))
          with (m :: firstn (S k) (candidates self condition (pre ++ x :: post))).
        rewrite Hfirst. reflexivity.
    + destruct (IH k Hk Hlen) as [pre [x [post [mx [-> [Hx Hfirst]]]]]].
      exists (media :: pre), x, post, mx. cbn [app candidates].
      rewrite Hcand. auto.
Qed.

(** For a count [k] of at least one and a sequence with at least [k] items
    that pass (no halting on existing files), the fill returns [k], the
    [k]-th accepted item is the last one queued and what follows it in the
    sequence is left unconsumed. *)
Lemma fill_stops_at_media_count self queue destination (C : Media -> bool)
    medias (k : nat) :
  (1 <= k)%nat ->
  (k <= List.length (candidates self C medias))%nat ->
  exists pre x post mx,
    medias = pre ++ x :: post
    /\ candidate self C x = Some mx
    /\ firstn k (candidates self C medias) = candidates self C pre ++ [mx]
    /\ _fill_media_queue self queue destination medias (Some (Z.of_nat k))
                         false (Some C)
       = Ok {| queue_of := queue ++ map Some (candidates self C pre ++ [mx]);
               medias_queued := Z.of_nat k;
               medias_left := post |}.
Proof.
  intros Hk Hlen.
  destruct (candidates_split self C medias k Hk Hlen)
    as [pre [x [post [mx [-> [Hx Hfirst]]]]]].
  exists pre, x, post, mx. repeat split; try assumption.
  assert (Hpre : (List.length (candidates self C pre) + 1 = k)%nat).
  { apply (f_equal (@List.length Media)) in Hfirst.
    rewrite length_app, firstn_length_le in Hfirst by exact Hlen.
    cbn in Hfirst. lia. }
  unfold _fill_media_queue. rewrite fill_loop_app.
  - rewrite fill_loop_cons, Hx, andb_false_r.
    cbn [count_reached Z.add].
    replace (Z.of_nat k <=? Z.of_nat (List.length (candidates self C pre)) + 1)
      with true by (symmetry; apply Z.leb_le; lia).
    unfold put. rewrite map_app, app_assoc. cbn [map].
    do 2 f_equal. lia.
  - intros m _. apply andb_false_r.
  - intros k' [= <-]. lia.
Qed.

(** C3: the code against the claim at [media_count = 0]. With a count of
    zero the scenario still gets its first matching item queued and the
    fill returns 1: the count is compared only after a [put]. *)
Theorem fill_count_zero_queues_one needs :
  _fill_media_queue (Scenario.the_looter needs) [] (Scenario.holding "img2")
                    Scenario.medias (Some 0) false (Some Scenario.images_only)
  = Ok {| queue_of := [Some Scenario.img1]; medias_queued := 1;
          medias_left := [Scenario.vid1; Scenario.img2; Scenario.img3;
                          Scenario.sidecar1] |}.
Proof.
  unfold _fill_media_queue, Scenario.medias.
  scenario_turn needs. reflexivity.
Qed.

(** ** The reference scenario, without [new_only] (C4) *)


(** ** The [extended_dump] flag (C5) *)

(** The fill reads the looter's name generator, session and video flags
    only: two looters built alike but for [extended_dump] fill alike. *)
Lemma fill_loop_extended_dump a g v j t dj don s destination media_count
    new_only condition medias :
  forall queue n,
    fill_loop (__init__ a g v j t dj don true s) destination media_count
              new_only condition medias queue n
    = fill_loop (__init__ a g v j t dj don false s) destination media_count
                new_only condition medias queue n.
Proof.
  induction medias as [|media rest IH]; intros queue n; [reflexivity|].
  rewrite !fill_loop_cons.
  change (candidate (__init__ a g v j t dj don true s) condition media)
    with (candidate (__init__ a g v j t dj don false s) condition media).
  destruct (candidate (__init__ a g v j t dj don false s) condition media)
    as [m|]; [|apply IH].
  change (already_there (__init__ a g v j t dj don true s) destination m)
    with (already_there (__init__ a g v j t dj don false s) destination m).
  rewrite IH. reflexivity.
Qed.

(** C5: the code against the claim. A looter built with [extended_dump]
    set fills the queue exactly as one built without it; on the listing
    whose post pages carry more than the summaries, the image summary is
    queued as it came, although [get_post_info] would answer another
    record for it. *)
Theorem extended_dump_is_ignored :
  (forall a g v j t dj don s queue destination medias media_count new_only
          condition,
     _fill_media_queue (__init__ a g v j t dj don true s) queue destination
                       medias media_count new_only condition
     = _fill_media_queue (__init__ a g v j t dj don false s) queue destination
                         medias media_count new_only condition)
  /\ extended_dump (Listing.the_looter true) = true
  /\ _fill_media_queue (Listing.the_looter true) [] Listing.nothing
                       [Listing.summary_image] None false None
     = Ok {| queue_of := [Some Listing.summary_image]; medias_queued := 1;
             medias_left := [] |}
  /\ get_post_info (Listing.the_looter true)
                   (shortcode Listing.summary_image)
     = Listing.detail Listing.summary_image
  /\ Listing.detail Listing.summary_image <> Listing.summary_image.
Proof.
  split; [|repeat split; discriminate].
  intros. unfold _fill_media_queue.
  change (default_condition (__init__ a g v j t dj don true s))
    with (default_condition (__init__ a g v j t dj don false s)).
  apply fill_loop_extended_dump.
Qed.

(** ** Sidecars and the condition (C6) *)




(** ** Workers, poison pills and [join] (C7) *)

Lemma init_loop_run turns :
  forall workers tr,
    init_loop turns workers tr = (Ok (workers ++ turns), tr ++ map Start turns).
Proof.
  induction turns as [|i turns IH]; intros workers tr; cbn.
  - rewrite !app_nil_r. reflexivity.
  - unfold bind, emit. rewrite IH, <- !app_assoc. reflexivity.
Qed.

Lemma _init_workers_run self pbar destination tr :
  _init_workers self pbar destination tr
  = (Ok (range (jobs self), []), tr ++ map Start (range (jobs self))).
Proof.
  unfold _init_workers, bind. rewrite init_loop_run. reflexivity.
Qed.

Lemma _poison_workers_run workers :
  forall queue,
    _poison_workers workers queue
    = queue ++ repeat None (List.length workers).
Proof.
  induction workers as [|w workers IH]; intros queue; cbn.
  - rewrite app_nil_r. reflexivity.
  - rewrite IH. unfold put. rewrite <- app_assoc. reflexivity.
Qed.

Lemma exited_length i : forall alive,
  List.length (exited i alive) = List.length alive.
Proof.
  induction i as [|i IH]; intros [|a alive]; cbn; auto.
Qed.

Lemma firstn_exited i j : forall alive,
  firstn i (exited j alive) = exited j (firstn i alive).
Proof.
  revert j; induction i as [|i IH]; intros j [|a alive]; cbn.
  - destruct j; reflexivity.
  - destruct j; reflexivity.
  - destruct j; reflexivity.
  - destruct j; cbn; [reflexivity|]. rewrite IH. reflexivity.
Qed.

Lemma exited_dead i : forall alive,
  Forall (eq false) alive -> Forall (eq false) (exited i alive).
Proof.
  induction i as [|i IH]; intros alive H; destruct H; cbn; auto.
Qed.

Lemma firstn_snoc {A : Type} (l : list A) : forall i a,
  nth_error l i = Some a -> firstn (S i) l = firstn i l ++ [a].
Proof.
  induction l as [|x l IH]; intros [|i] a H; cbn in *; try discriminate.
  - injection H as ->. reflexivity.
  - rewrite (IH i a H). reflexivity.
Qed.

Lemma all_dead alive :
  Forall (eq false) alive -> alive = repeat false (List.length alive).
Proof.
  induction 1 as [|a alive <- _ IH]; cbn; [reflexivity|].
  rewrite <- IH. reflexivity.
Qed.

(** [_join_workers] makes the calls of [_join_workers_calls]. *)
Lemma perform_join_loop out workers :
  forall tr, perform out (join_calls workers) tr = join_loop workers tr.
Proof.
  induction workers as [|w workers IH]; intros tr; cbn; [reflexivity|].
  unfold bind, emit. apply IH.
Qed.

Lemma perform_any_alive out yes no workers :
  forall tr,
    perform out (any_alive_calls workers yes no) tr
    = if existsb (is_alive out) workers then perform out yes tr
      else perform out no tr.
Proof.
  induction workers as [|w workers IH]; intros tr; cbn; [reflexivity|].
  destruct (is_alive out w); cbn; [reflexivity | apply IH].
Qed.

Lemma perform_join_calls out workers tr :
  perform out (_join_workers_calls workers) tr = _join_workers out workers tr.
Proof.
  unfold _join_workers_calls, _join_workers, when.
  rewrite perform_any_alive.
  destruct (existsb (is_alive out) workers);
    [apply perform_join_loop | reflexivity].
Qed.

Lemma seq_next i n :
  (i < n)%nat -> seq i (n - i) = i :: seq (S i) (n - S i).
Proof.
  intros Hi. replace (n - i)%nat with (S (n - S i)) by lia. reflexivity.
Qed.

Lemma thread_step_inv n s s' :
  thread_step s s' -> join_inv n s -> join_inv n s'.
Proof.
  intros Hstep [Hlen [i [Hi [Hdead Hcalls]]]].
  destruct Hstep as [calls alive j Hj | w k alive answer Hw | w k alive Hw];
    unfold join_inv; cbn [fst snd] in *.
  - split; [rewrite exited_length; exact Hlen|].
    exists i. split; [exact Hi|]. split; [|exact Hcalls].
    rewrite firstn_exited. apply exited_dead. exact Hdead.
  - split; [exact Hlen|].
    destruct (Nat.eq_dec i n) as [->|Hne].
    + rewrite Nat.sub_diag in Hcalls. cbn in Hcalls.
      destruct Hcalls as [Hc|Hc]; discriminate Hc.
    + rewrite (seq_next i n) in Hcalls by lia. cbn in Hcalls.
      destruct Hcalls as [Hc|Hc]; [|discriminate Hc].
      injection Hc as -> ->.
      destruct answer.
      * exists 0%nat. split; [lia|]. split; [constructor|].
        right. rewrite Nat.sub_0_r. reflexivity.
      * exists (S i). split; [lia|]. split; [|left; reflexivity].
        rewrite (firstn_snoc alive i false Hw).
        apply Forall_app. split; [exact Hdead | repeat constructor].
  - split; [exact Hlen|].
    destruct (Nat.eq_dec i n) as [->|Hne].
    + rewrite Nat.sub_diag in Hcalls. cbn in Hcalls.
      destruct Hcalls as [Hc|Hc]; discriminate Hc.
    + rewrite (seq_next i n) in Hcalls by lia. cbn in Hcalls.
      destruct Hcalls as [Hc|Hc]; [discriminate Hc|].
      injection Hc as -> ->.
      exists (S i). split; [lia|]. split; [|right; reflexivity].
      rewrite (firstn_snoc alive i false Hw).
      apply Forall_app. split; [exact Hdead | repeat constructor].
Qed.

Lemma thread_steps_inv n s s' :
  thread_steps s s' -> join_inv n s -> join_inv n s'.
Proof.
  induction 1 as [s | s1 s2 s3 Hstep _ IH]; intros Hinv; [exact Hinv|].
  apply IH. exact (thread_step_inv n _ _ Hstep Hinv).
Qed.

Lemma join_inv_returned n alive :
  join_inv n (Return_, alive) -> alive = repeat false n.
Proof.
  intros [Hlen [i [Hi [Hdead Hcalls]]]]. cbn [fst snd] in *.
  destruct (Nat.eq_dec i n) as [->|Hne].
  - rewrite firstn_all2 in Hdead by lia.
    rewrite <- Hlen. apply all_dead. exact Hdead.
  - rewrite (seq_next i n) in Hcalls by lia. cbn in Hcalls.
    destruct Hcalls as [Hc|Hc]; discriminate Hc.
Qed.

(** C7. For every jobs count [n], [_init_workers] starts exactly [n]
    workers (one [start] each, and nothing else), [_poison_workers] puts
    exactly [n] poison pills on the queue, one per started worker, and
    [_join_workers], whose calls to the threads are those of
    [_join_workers_calls], returns only once all [n] workers have exited:
    whatever the threads do in between and whenever they end, in every
    run of these calls that reaches the return every worker has ended. *)
Theorem workers_pills_join (n : nat) self pbar destination tr :
  jobs self = Z.of_nat n ->
  exists workers,
    _init_workers self pbar destination tr
    = (Ok (workers, []), tr ++ map Start workers)
    /\ List.length workers = n
    /\ (forall queue, _poison_workers workers queue = queue ++ repeat None n)
    /\ (forall out tr',
          _join_workers out workers tr'
          = perform out (_join_workers_calls workers) tr')
    /\ (forall alive,
          thread_steps (_join_workers_calls workers, all_alive workers)
                       (Return_, alive) ->
          alive = repeat false n).
Proof.
  intros Hjobs. exists (range (jobs self)).
  assert (Hlen : @List.length Worker (range (jobs self)) = n).
  { unfold range. rewrite length_seq, Hjobs. apply Nat2Z.id. }
  split; [apply _init_workers_run|]. split; [exact Hlen|]. split; [|split].
  - intros queue. rewrite _poison_workers_run, Hlen. reflexivity.
  - intros out tr'. symmetry. apply perform_join_calls.
  - intros alive Hsteps. apply join_inv_returned.
    apply (thread_steps_inv n _ _ Hsteps).
    unfold range. rewrite Hjobs, Nat2Z.id.
    split; [cbn [snd]; unfold all_alive; rewrite length_map, length_seq;
            reflexivity|].
    exists 0%nat. split; [lia|]. split; [constructor|].
    left. cbn [fst]. rewrite Nat.sub_0_r. reflexivity.
Qed.

(** A run of [_join_workers] beside two workers: the first is found alive,
    and each [join] waits for its thread to end. *)
Example join_two_workers :
  thread_steps (_join_workers_calls [0%nat; 1%nat],
                all_alive [0%nat; 1%nat])
               (Return_, [false; false]).
Proof.
  eapply thread_steps_step;
    [apply (is_alive_answers _ _ _ true); reflexivity|]. cbn.
  eapply thread_steps_step; [apply (worker_exits _ _ 0); reflexivity|]. cbn.
  eapply thread_steps_step; [apply join_returns; reflexivity|].
  eapply thread_steps_step; [apply (worker_exits _ _ 1); reflexivity|]. cbn.
  eapply thread_steps_step; [apply join_returns; reflexivity|].
  apply thread_steps_refl.
Qed.

(** While a worker is alive the call to [join] it does not return: from
    there the caller has no step of its own. *)
Example join_waits :
  forall s,
    thread_step (join_calls [0%nat], [true]) s ->
    s = (join_calls [0%nat], [false]).
Proof.
  intros s Hstep. inversion Hstep as [calls alive i Hi | | w k alive Hw]; subst.
  - destruct i as [|[|i]]; cbn in Hi; try discriminate. reflexivity.
  - cbn in Hw. discriminate.
Qed.

Lemma workers_pills_join_witness :
  exists workers,
    _init_workers (Scenario.the_looter (fun _ => false)) None
                  (Scenario.holding "img2") []
    = (Ok (workers, []), [] ++ map Start workers)
    /\ List.length workers = 2%nat
    /\ (forall queue, _poison_workers workers queue = queue ++ repeat None 2)
    /\ [false; false] = repeat false 2.
Proof.
  destruct (workers_pills_join 2 (Scenario.the_looter (fun _ => false)) None
              (Scenario.holding "img2") [] eq_refl)
    as [workers [Hinit [Hlen [Hpills [_ Hjoin]]]]].
  exists workers.
  split; [exact Hinit|]. split; [exact Hlen|]. split; [exact Hpills|].
  apply Hjoin.
  assert (Hworkers : workers = [0%nat; 1%nat])
    by (cbv in Hinit; injection Hinit as <-; reflexivity).
  rewrite Hworkers. exact join_two_workers.
Defined.

(** ** The trace of [download] *)

Lemma join_loop_run workers :
  forall tr, join_loop workers tr = (Ok tt, tr ++ map Join workers).
Proof.
  induction workers as [|w workers IH]; intros tr; cbn.
  - rewrite app_nil_r. reflexivity.
  - unfold bind, emit. rewrite IH, <- app_assoc. reflexivity.
Qed.

Lemma _join_workers_run out workers tr :
  _join_workers out workers tr
  = (Ok tt, tr ++ (if existsb (is_alive out) workers
                   then map Join workers else [])).
Proof.
  unfold _join_workers, when.
  destruct (existsb (is_alive out) workers).
  - apply join_loop_run.
  - unfold ret. rewrite app_nil_r. reflexivity.
Qed.

Lemma _fill_media_queue_total self queue destination medias media_count
    new_only condition :
  exists st,
    _fill_media_queue self queue destination medias media_count new_only
                      condition = Ok st.
Proof. apply fill_loop_total. Qed.

(** Once the destination is open and the progress bar classes are valid,
    [download] runs to its end: it returns the count of the fill, and its
    trace is the following. *)
Lemma download_run out self destination condition media_count timeframe
    new_only pgpbar_cls dlpbar_cls tr fs closing tr1 st :
  _init_destfs out destination true tr = (Ok (fs, closing), tr1) ->
  pbar_ok pgpbar_cls ->
  pbar_ok dlpbar_cls ->
  _fill_media_queue self [] fs (_medias out timeframe) media_count new_only
                    condition = Ok st ->
  download out self destination condition media_count timeframe new_only
           pgpbar_cls dlpbar_cls tr
  = (Ok (medias_queued st),
     tr1 ++ (if is_not_None pgpbar_cls then [PbarInit] else [])
         ++ (if is_not_None dlpbar_cls then [PbarInit] else [])
         ++ map Start (range (jobs self)) ++ [AtExit]
         ++ (if is_not_None pgpbar_cls then [PbarFinish] else [])
         ++ (if is_not_None dlpbar_cls
             then [PbarSetMaximum (medias_queued st)] else [])
         ++ (if medias_queued st =? 0 then [Warn "No medias found."] else [])
         ++ (if existsb (is_alive out) (range (jobs self))
             then map Join (range (jobs self)) else [])
         ++ (if is_not_None dlpbar_cls then [PbarFinish] else [])
         ++ (if closing then [CloseFs (fs_id fs)] else [])).
Proof.
  intros Hdest Hpg Hdl Hfill.
  unfold download, bind. rewrite Hdest.
  assert (Hinit : forall cls t, pbar_ok cls ->
            _init_pbar cls t
            = (Ok tt, t ++ (if is_not_None cls then [PbarInit] else []))).
  { intros [cls|] t Hok; cbn.
    - rewrite (Hok cls eq_refl). reflexivity.
    - unfold ret. rewrite app_nil_r. reflexivity. }
  rewrite (Hinit _ _ Hpg), (Hinit _ _ Hdl), _init_workers_run.
  unfold emit, lift. rewrite Hfill.
  assert (Hwhen : forall b e t,
            when b (fun t' => (Ok tt, t' ++ [e])) t
            = (Ok tt, t ++ (if b then [e] else []))).
  { intros [] e t; cbn; [reflexivity|]. unfold ret.
    rewrite app_nil_r. reflexivity. }
  rewrite !Hwhen, _join_workers_run, !Hwhen. unfold ret.
  rewrite <- !app_assoc. reflexivity.
Qed.

(** ** Closing the destination (C8) *)

(** [InstaLooter.download], handed a URL, opens a filesystem first and
    closes that filesystem last. *)
Lemma download_closes_url out self url condition media_count timeframe
    new_only pgpbar_cls dlpbar_cls tr :
  pbar_ok pgpbar_cls ->
  pbar_ok dlpbar_cls ->
  exists n mid,
    download out self (DestText url) condition media_count timeframe new_only
             pgpbar_cls dlpbar_cls tr
    = (Ok n, tr ++ [OpenFs url true] ++ mid
                ++ [CloseFs (fs_id (open_fs out url true))]).
Proof.
  intros Hpg Hdl.
  destruct (_fill_media_queue_total self [] (open_fs out url true)
              (_medias out timeframe) media_count new_only condition)
    as [st Hst].
  exists (medias_queued st).
  exists ((if is_not_None pgpbar_cls then [PbarInit] else [])
          ++ (if is_not_None dlpbar_cls then [PbarInit] else [])
          ++ map Start (range (jobs self)) ++ [AtExit]
          ++ (if is_not_None pgpbar_cls then [PbarFinish] else [])
          ++ (if is_not_None dlpbar_cls
              then [PbarSetMaximum (medias_queued st)] else [])
          ++ (if medias_queued st =? 0 then [Warn "No medias found."] else [])
          ++ (if existsb (is_alive out) (range (jobs self))
              then map Join (range (jobs self)) else [])
          ++ (if is_not_None dlpbar_cls then [PbarFinish] else [])).
  rewrite (download_run out self (DestText url) condition media_count
             timeframe new_only pgpbar_cls dlpbar_cls tr
             (open_fs out url true) true (tr ++ [OpenFs url true]) st
             eq_refl Hpg Hdl Hst).
  rewrite <- !app_assoc. reflexivity.
Qed.

Lemma download_closes_bytes_url out self url condition media_count timeframe
    new_only pgpbar_cls dlpbar_cls tr :
  download out self (DestBytes url) condition media_count timeframe new_only
           pgpbar_cls dlpbar_cls tr
  = download out self (DestText url) condition media_count timeframe new_only
             pgpbar_cls dlpbar_cls tr.
Proof. reflexivity. Qed.

(** [InstaLooter.download], handed a filesystem instance, never closes a
    filesystem. *)
Lemma download_keeps_instance out self fs condition media_count timeframe
    new_only pgpbar_cls dlpbar_cls tr :
  pbar_ok pgpbar_cls ->
  pbar_ok dlpbar_cls ->
  exists n mid,
    download out self (DestFS fs) condition media_count timeframe new_only
             pgpbar_cls dlpbar_cls tr = (Ok n, tr ++ mid)
    /\ forall id, ~ In (CloseFs id) mid.
Proof.
  intros Hpg Hdl.
  destruct (_fill_media_queue_total self [] fs (_medias out timeframe)
              media_count new_only condition) as [st Hst].
  eexists. eexists. split.
  - apply (download_run out self (DestFS fs) condition media_count
             timeframe new_only pgpbar_cls dlpbar_cls tr fs false tr st
             eq_refl Hpg Hdl Hst).
  - intros id Hin.
    repeat (apply in_app_or in Hin; destruct Hin as [Hin|Hin]);
      try (apply in_map_iff in Hin; destruct Hin as [w [Hw _]]; discriminate);
      repeat match type of Hin with
             | In _ (if ?b then _ else _) => destruct b
             end;
      cbn in Hin; try tauto;
      try (destruct Hin as [Hin|[]]; discriminate);
      try (apply in_map_iff in Hin; destruct Hin as [w [Hw _]]; discriminate).
Qed.

(** C8: the code against the claim. [PostLooter.download], handed a URL,
    opens a filesystem, fills the queue, runs its worker and returns: its
    whole trace is the [open_fs] call and the worker's run, and the
    filesystem it opened is left open. *)
Theorem post_download_leaves_fs_open :
  (forall out self url condition media_count new_only tr,
     exists n,
       post_download out self (DestText url) condition media_count new_only tr
       = (Ok n, tr ++ [OpenFs url true; Run]))
  /\ post_download (Listing.outside [])
                   {| looter := Listing.the_looter false; code := "p1" |}
                   (DestText "osfs://pictures") None None false []
     = (Ok 1, [OpenFs "osfs://pictures" true; Run]).
Proof.
  split; [|reflexivity].
  intros out self url condition media_count new_only tr.
  destruct (_fill_media_queue_total (looter self) [] (open_fs out url true)
              (post_medias self) media_count new_only condition) as [st Hst].
  exists (medias_queued st).
  unfold post_download, _init_destfs, bind, emit, ret, lift.
  cbv beta iota zeta. rewrite Hst. rewrite <- app_assoc. reflexivity.
Qed.

(** ** Nothing found (C9) *)

(** C9. When the fill accepts no item, [download] does not raise: it
    issues the warning "No medias found." and returns 0. *)
Theorem download_warns_when_empty out self destination condition media_count
    timeframe new_only pgpbar_cls dlpbar_cls tr fs closing tr1 st :
  _init_destfs out destination true tr = (Ok (fs, closing), tr1) ->
  pbar_ok pgpbar_cls ->
  pbar_ok dlpbar_cls ->
  _fill_media_queue self [] fs (_medias out timeframe) media_count new_only
                    condition = Ok st ->
  medias_queued st = 0 ->
  exists tr',
    download out self destination condition media_count timeframe new_only
             pgpbar_cls dlpbar_cls tr = (Ok 0, tr')
    /\ In (Warn "No medias found.") tr'.
Proof.
  intros Hdest Hpg Hdl Hfill Hzero.
  eexists. split.
  - rewrite (download_run _ _ _ _ _ _ _ _ _ _ _ _ _ _ Hdest Hpg Hdl Hfill).
    rewrite Hzero. reflexivity.
  - rewrite Z.eqb_refl.
    do 7 (apply in_or_app; right). apply in_or_app. left. left. reflexivity.
Qed.

Lemma download_warns_when_empty_witness :
  exists tr',
    download (Listing.outside []) (Listing.the_looter false)
             (DestText "osfs://pictures") None None None false None None []
    = (Ok 0, tr')
    /\ In (Warn "No medias found.") tr'.
Proof.
  apply (download_warns_when_empty (Listing.outside [])
           (Listing.the_looter false) (DestText "osfs://pictures") None None
           None false None None [] Listing.nothing true
           [OpenFs "osfs://pictures" true]
           {| queue_of := []; medias_queued := 0; medias_left := [] |}).
  - reflexivity.
  - intros cls H; discriminate H.
  - intros cls H; discriminate H.
  - reflexivity.
  - reflexivity.
Defined.

(** ** The video flags and the default condition (C10) *)





(** Under [videos_only] the scenario yields its video and nothing else. *)
Example fill_scenario_videos_only :
  _fill_media_queue
    (__init__ false false true 2 (Scenario.names (fun _ => false)) false
              false false Scenario.posts) [] (Scenario.holding "img2")
    Scenario.medias None false None
  = Ok {| queue_of := [Some Scenario.vid1]; medias_queued := 1;
          medias_left := [] |}.
Proof. reflexivity. Qed.

(** * Further properties of the module *)

(** ** The fill loop *)

(** X1. The in-place pruning of a sidecar's children, which removes by
    equality from the list while walking a copy of it, never raises the
    [ValueError] of [list.remove]; what it leaves are children of the list,
    as many as fit the condition; and when the condition gives one answer
    for children that are equal as dictionaries, it leaves exactly the
    children that fit the condition, in their order. *)
Theorem prune_leaves_fitting_number (condition : Media -> bool)
    (es : list Media) :
  exists kept,
    prune condition es es = Ok kept
    /\ List.length kept = List.length (filter condition es)
    /\ incl kept es
    /\ (respects condition es -> kept = filter condition es).
Proof.
  exists (pruned condition es).
  split; [apply prune_pruned|]. split; [apply pruned_length|].
  split; [apply pruned_incl | apply pruned_filter].
Qed.

(** Of two children equal as dictionaries, the second of which fails a
    condition on the order of the keys, the loop removes the first. *)
Example prune_removes_the_equal_child :
  media_eqb Twins.id_first Twins.id_last = true
  /\ Twins.starts_with_id Twins.id_first = true
  /\ Twins.starts_with_id Twins.id_last = false
  /\ prune Twins.starts_with_id [Twins.id_first; Twins.id_last]
            [Twins.id_first; Twins.id_last]
     = Ok [Twins.id_last].
Proof. repeat split. Qed.

Lemma fill_loop_in_order self destination media_count new_only condition
    medias :
  forall queue n,
  exists st consumed accepted rest,
    fill_loop self destination media_count new_only condition medias queue n
    = Ok st
    /\ medias = consumed ++ medias_left st
    /\ candidates self condition medias = accepted ++ rest
    /\ queue_of st = queue ++ map Some accepted
    /\ medias_queued st = n + Z.of_nat (List.length accepted).
Proof.
  induction medias as [|media others IH]; intros queue n.
  - eexists. exists [], [], []. cbn. rewrite app_nil_r, Z.add_0_r. auto.
  - rewrite fill_loop_cons. cbn [candidates].
    destruct (candidate self condition media) as [m|].
    + destruct (already_there self destination m && new_only).
      * eexists. exists [media], [], (m :: candidates self condition others).
        cbn. rewrite app_nil_r, Z.add_0_r. auto.
      * destruct (count_reached media_count (n + 1)).
        -- eexists. exists [media], [m], (candidates self condition others).
           cbn. unfold put. auto.
        -- destruct (IH (put queue (Some m)) (n + 1))
             as [st [consumed [accepted [rest [Hst [Hm [Hc [Hq Hn]]]]]]]].
           exists st, (media :: consumed), (m :: accepted), rest.
           split; [exact Hst|]. split; [cbn; rewrite <- Hm; reflexivity|].
           split; [cbn; rewrite Hc; reflexivity|].
           split; [rewrite Hq; unfold put; rewrite <- app_assoc; reflexivity|].
           rewrite Hn. cbn [List.length]. lia.
    + destruct (IH queue n)
        as [st [consumed [accepted [rest [Hst [Hm [Hc [Hq Hn]]]]]]]].
      exists st, (media :: consumed), accepted, rest.
      split; [exact Hst|]. split; [cbn; rewrite <- Hm; reflexivity|]. auto.
Qed.

(** X2. When [_fill_media_queue] returns, what it has added to the queue
    is an initial run, in the order of the sequence, of the records its
    items give when taken one by one; nothing already on the queue is
    touched, the count returned is the number of records added, and the
    part of the iterator left over is a tail of the sequence. *)
Theorem fill_queues_in_order self queue destination medias media_count
    new_only (C : Media -> bool) st :
  _fill_media_queue self queue destination medias media_count new_only
                    (Some C) = Ok st ->
  exists consumed accepted rest,
    medias = consumed ++ medias_left st
    /\ candidates self C medias = accepted ++ rest
    /\ queue_of st = queue ++ map Some accepted
    /\ medias_queued st = Z.of_nat (List.length accepted).
Proof.
  unfold _fill_media_queue. intros Hst.
  destruct (fill_loop_in_order self destination media_count new_only C medias
                               queue 0)
    as [st' [consumed [accepted [rest [Hst' H]]]]].
  rewrite Hst in Hst'. injection Hst' as <-.
  exists consumed, accepted, rest. exact H.
Qed.

Lemma fill_queues_in_order_witness :
  exists consumed accepted rest,
    Scenario.medias
    = consumed ++ medias_left
        {| queue_of := [Some Scenario.img1]; medias_queued := 1;
           medias_left := [Scenario.img3; Scenario.sidecar1] |}
    /\ candidates (Scenario.the_looter (fun _ => false)) Scenario.images_only
                  Scenario.medias = accepted ++ rest
    /\ queue_of {| queue_of := [Some Scenario.img1]; medias_queued := 1;
                   medias_left := [Scenario.img3; Scenario.sidecar1] |}
       = [] ++ map Some accepted
    /\ medias_queued
         {| queue_of := [Some Scenario.img1]; medias_queued := 1;
            medias_left := [Scenario.img3; Scenario.sidecar1] |}
       = Z.of_nat (List.length accepted).
Proof.
  apply (fill_queues_in_order (Scenario.the_looter (fun _ => false)) []
           (Scenario.holding "img2") Scenario.medias None true
           Scenario.images_only).
  reflexivity.
Defined.

(** X3. Without a count and without [new_only] the fill consumes the whole
    sequence and queues the record of every item that passes: nothing is
    left in the iterator and the count is the number of these records. *)
Theorem fill_takes_everything self queue destination medias
    (condition : option (Media -> bool)) :
  _fill_media_queue self queue destination medias None false condition
  = Ok {| queue_of :=
            queue ++ map Some
              (candidates self
                 (match condition with
                  | None => default_condition self
                  | Some c => c
                  end) medias);
          medias_queued :=
            Z.of_nat (List.length
              (candidates self
                 (match condition with
                  | None => default_condition self
                  | Some c => c
                  end) medias));
          medias_left := [] |}.
Proof.
  unfold _fill_media_queue.
  rewrite <- (app_nil_r medias) at 1.
  rewrite fill_loop_app.
  - reflexivity.
  - intros m _. apply andb_false_r.
  - intros k Hk. discriminate Hk.
Qed.

Lemma fill_loop_bound self destination k new_only condition medias :
  forall queue n,
    n < Z.max k 1 ->
    exists st,
      fill_loop self destination (Some k) new_only condition medias queue n
      = Ok st
      /\ n <= medias_queued st <= Z.max k 1.
Proof.
  induction medias as [|media others IH]; intros queue n Hn.
  - eexists. split; [reflexivity|]. cbn. lia.
  - rewrite fill_loop_cons.
    destruct (candidate self condition media) as [m|]; [|apply IH; exact Hn].
    destruct (already_there self destination m && new_only).
    + eexists. split; [reflexivity|]. cbn. lia.
    + cbn [count_reached]. destruct (k <=? n + 1) eqn:Hk.
      * eexists. split; [reflexivity|]. cbn. lia.
      * apply Z.leb_gt in Hk.
        destruct (IH (put queue (Some m)) (n + 1)) as [st [Hst Hb]]; [lia|].
        exists st. split; [exact Hst|]. lia.
Qed.

(** X4. With a count [k] the fill never queues more than [k] medias when
    [k] is at least one, and never more than one when it is not: the count
    it returns lies between 0 and [max k 1]. *)
Theorem fill_count_bounded self queue destination medias (k : Z) new_only
    condition :
  exists st,
    _fill_media_queue self queue destination medias (Some k) new_only
                      condition = Ok st
    /\ 0 <= medias_queued st <= Z.max k 1.
Proof.
  unfold _fill_media_queue. apply fill_loop_bound. lia.
Qed.

Lemma fill_loop_any_destination self d1 d2 media_count condition medias :
  forall queue n,
    fill_loop self d1 media_count false condition medias queue n
    = fill_loop self d2 media_count false condition medias queue n.
Proof.
  induction medias as [|media others IH]; intros queue n; [reflexivity|].
  rewrite !fill_loop_cons.
  destruct (candidate self condition media) as [m|]; [|apply IH].
  rewrite !andb_false_r, IH. reflexivity.
Qed.

(** X5. Without [new_only] what the destination holds has no influence on
    the fill: medias already downloaded are queued again. *)
Theorem fill_ignores_destination self queue d1 d2 medias media_count
    condition :
  _fill_media_queue self queue d1 medias media_count false condition
  = _fill_media_queue self queue d2 medias media_count false condition.
Proof. unfold _fill_media_queue. apply fill_loop_any_destination. Qed.

(** X6. Poison pills come last: after a fill into an empty queue followed by
    [_poison_workers], the queue holds the queued medias, then one pill per
    worker and nothing else, so that no worker meets a pill while a media
    is still waiting behind it. *)
Theorem pills_after_medias self destination medias media_count new_only
    condition (workers : list Worker) :
  exists st accepted,
    _fill_media_queue self [] destination medias media_count new_only
                      condition = Ok st
    /\ medias_queued st = Z.of_nat (List.length accepted)
    /\ _poison_workers workers (queue_of st)
       = map Some accepted ++ repeat None (List.length workers).
Proof.
  unfold _fill_media_queue.
  destruct (fill_loop_in_order self destination media_count new_only
              (match condition with
               | None => default_condition self
               | Some c => c
               end) medias [] 0)
    as [st [consumed [accepted [rest [Hst [_ [_ [Hq Hn]]]]]]]].
  exists st, accepted. split; [exact Hst|]. split; [exact Hn|].
  rewrite _poison_workers_run, Hq. reflexivity.
Qed.

(** X7. For a count [k] of at least one, without [new_only], on a sequence
    with at least [k] items that pass, the fill returns [k]: the record of
    the [k]-th such item is the last one queued and the items after it stay
    in the iterator. *)
Theorem fill_reaches_count self queue destination (C : Media -> bool)
    medias (k : nat) :
  (1 <= k)%nat ->
  (k <= List.length (candidates self C medias))%nat ->
  exists pre x post mx,
    medias = pre ++ x :: post
    /\ candidate self C x = Some mx
    /\ firstn k (candidates self C medias) = candidates self C pre ++ [mx]
    /\ _fill_media_queue self queue destination medias (Some (Z.of_nat k))
                         false (Some C)
       = Ok {| queue_of := queue ++ map Some (candidates self C pre ++ [mx]);
               medias_queued := Z.of_nat k;
               medias_left := post |}.
Proof. apply fill_stops_at_media_count. Qed.

Lemma fill_reaches_count_witness :
  exists pre x post mx,
    Scenario.medias = pre ++ x :: post
    /\ candidate (Scenario.the_looter (fun _ => false)) Scenario.images_only x
       = Some mx
    /\ firstn 2 (candidates (Scenario.the_looter (fun _ => false))
                            Scenario.images_only Scenario.medias)
       = candidates (Scenario.the_looter (fun _ => false))
                    Scenario.images_only pre ++ [mx]
    /\ _fill_media_queue (Scenario.the_looter (fun _ => false)) []
                         (Scenario.holding "img2") Scenario.medias
                         (Some (Z.of_nat 2)) false
                         (Some Scenario.images_only)
       = Ok {| queue_of :=
                 [] ++ map Some
                   (candidates (Scenario.the_looter (fun _ => false))
                               Scenario.images_only pre ++ [mx]);
               medias_queued := Z.of_nat 2;
               medias_left := post |}.
Proof.
  apply (fill_reaches_count (Scenario.the_looter (fun _ => false)) []
           (Scenario.holding "img2") Scenario.images_only Scenario.medias 2).
  - lia.
  - cbn. lia.
Defined.

(** X8. With [new_only], on a listing that delivers first items whose files
    are not there yet and then items whose files all are, the fill queues
    the records of the first part, all of them and nothing else, and
    returns their number, provided the count, if any, is larger. *)
Theorem fill_new_medias_only self queue destination (C : Media -> bool)
    media_count fresh old :
  (forall m, In m (candidates self C fresh) ->
             already_there self destination m = false) ->
  (forall m, In m (candidates self C old) ->
             already_there self destination m = true) ->
  (forall k, media_count = Some k ->
             Z.of_nat (List.length (candidates self C fresh)) < k) ->
  exists left,
    _fill_media_queue self queue destination (fresh ++ old) media_count true
                      (Some C)
    = Ok {| queue_of := queue ++ map Some (candidates self C fresh);
            medias_queued := Z.of_nat (List.length (candidates self C fresh));
            medias_left := left |}.
Proof. apply fill_monotone_count. Qed.

Lemma fill_new_medias_only_witness :
  exists left,
    _fill_media_queue (Scenario.the_looter (fun _ => false)) []
                      (Scenario.holding "img2")
                      ([Scenario.img1; Scenario.vid1]
                         ++ [Scenario.vid1; Scenario.img2])
                      None true (Some Scenario.images_only)
    = Ok {| queue_of :=
              [] ++ map Some
                (candidates (Scenario.the_looter (fun _ => false))
                            Scenario.images_only
                            [Scenario.img1; Scenario.vid1]);
            medias_queued :=
              Z.of_nat (List.length
                (candidates (Scenario.the_looter (fun _ => false))
                            Scenario.images_only
                            [Scenario.img1; Scenario.vid1]));
            medias_left := left |}.
Proof.
  apply (fill_new_medias_only (Scenario.the_looter (fun _ => false)) []
           (Scenario.holding "img2") Scenario.images_only None
           [Scenario.img1; Scenario.vid1] [Scenario.vid1; Scenario.img2]).
  - intros m [<-|[]]; reflexivity.
  - intros m [<-|[]]; reflexivity.
  - intros k Hk; discriminate Hk.
Defined.


(** ** The entry points *)

(** Splits a membership in a trace made of appended pieces, and closes the
    cases where the event cannot be of the piece. *)
Ltac in_pieces H :=
  repeat first
    [ apply in_app_or in H; destruct H as [H|H]
    | match type of H with
      | In _ (_ :: _ ++ _) => destruct H as [H|H]; [discriminate H|]
      end ];
  repeat match type of H with
         | In _ (if ?b then _ else _) => destruct b
         end;
  try (apply in_map_iff in H; destruct H as [? [H _]]; discriminate H);
  try (cbn in H; tauto);
  try (destruct H as [H|[]]; discriminate H).



(** A [download] that returns was given valid progress bar classes. *)
Lemma download_returned_bars out self destination condition media_count
    timeframe new_only pgpbar_cls dlpbar_cls tr n tr' :
  download out self destination condition media_count timeframe new_only
           pgpbar_cls dlpbar_cls tr = (Ok n, tr') ->
  pbar_ok pgpbar_cls /\ pbar_ok dlpbar_cls.
Proof.
  unfold download, bind.
  destruct (_init_destfs out destination true tr) as [[[fs closing]|e] tr1];
    [|discriminate].
  destruct pgpbar_cls as [[[|]]|].
  - destruct dlpbar_cls as [[[|]]|].
    + intros _. split; intros cls [= <-]; reflexivity.
    + cbn. discriminate.
    + intros _. split; [intros cls [= <-]; reflexivity|].
      intros cls H; discriminate H.
  - cbn. discriminate.
  - destruct dlpbar_cls as [[[|]]|].
    + intros _. split; [intros cls H; discriminate H|].
      intros cls [= <-]; reflexivity.
    + cbn. discriminate.
    + intros _. split; intros cls H; discriminate H.
Qed.

(** X10. Whenever [InstaLooter.download], handed a URL, returns, it has
    opened one filesystem, as its first action, and closed that filesystem,
    as its last action: in between it has opened and closed none. *)
Theorem download_closes_what_it_opened out self url condition media_count
    timeframe new_only pgpbar_cls dlpbar_cls tr n tr' :
  download out self (DestText url) condition media_count timeframe new_only
           pgpbar_cls dlpbar_cls tr = (Ok n, tr') ->
  exists mid,
    tr' = tr ++ [OpenFs url true] ++ mid
             ++ [CloseFs (fs_id (open_fs out url true))]
    /\ (forall id, ~ In (CloseFs id) mid)
    /\ (forall u c, ~ In (OpenFs u c) mid).
Proof.
  intros Hreturn.
  destruct (download_returned_bars _ _ _ _ _ _ _ _ _ _ _ _ Hreturn)
    as [Hpg Hdl].
  destruct (_fill_media_queue_total self [] (open_fs out url true)
              (_medias out timeframe) media_count new_only condition)
    as [st Hst].
  rewrite (download_run out self (DestText url) condition media_count
             timeframe new_only pgpbar_cls dlpbar_cls tr
             (open_fs out url true) true (tr ++ [OpenFs url true]) st
             eq_refl Hpg Hdl Hst) in Hreturn.
  injection Hreturn as _ <-.
  exists ((if is_not_None pgpbar_cls then [PbarInit] else [])
          ++ (if is_not_None dlpbar_cls then [PbarInit] else [])
          ++ map Start (range (jobs self)) ++ [AtExit]
          ++ (if is_not_None pgpbar_cls then [PbarFinish] else [])
          ++ (if is_not_None dlpbar_cls
              then [PbarSetMaximum (medias_queued st)] else [])
          ++ (if medias_queued st =? 0 then [Warn "No medias found."] else [])
          ++ (if existsb (is_alive out) (range (jobs self))
              then map Join (range (jobs self)) else [])
          ++ (if is_not_None dlpbar_cls then [PbarFinish] else [])).
  split; [|split].
  - rewrite <- !app_assoc. reflexivity.
  - intros id Hin. in_pieces Hin.
  - intros u c Hin. in_pieces Hin.
Qed.

Lemma download_closes_what_it_opened_witness :
  exists mid,
    [OpenFs "osfs://pictures" true; Start 0%nat; AtExit;
     CloseFs (fs_id Listing.nothing)]
    = [] ++ [OpenFs "osfs://pictures" true] ++ mid
         ++ [CloseFs (fs_id (open_fs
                (Listing.outside [Listing.summary_image])
                "osfs://pictures" true))]
    /\ (forall id, ~ In (CloseFs id) mid)
    /\ (forall u c, ~ In (OpenFs u c) mid).
Proof.
  apply (download_closes_what_it_opened
           (Listing.outside [Listing.summary_image])
           (Listing.the_looter false) "osfs://pictures" None None None false
           None None [] 1).
  reflexivity.
Defined.

(** X11. Whenever [InstaLooter.download], handed a filesystem instance,
    returns, it has neither opened nor closed any filesystem. *)
Theorem download_leaves_instance_alone out self fs condition media_count
    timeframe new_only pgpbar_cls dlpbar_cls tr n tr' :
  download out self (DestFS fs) condition media_count timeframe new_only
           pgpbar_cls dlpbar_cls tr = (Ok n, tr') ->
  exists mid,
    tr' = tr ++ mid
    /\ (forall id, ~ In (CloseFs id) mid)
    /\ (forall u c, ~ In (OpenFs u c) mid).
Proof.
  intros Hreturn.
  destruct (download_returned_bars _ _ _ _ _ _ _ _ _ _ _ _ Hreturn)
    as [Hpg Hdl].
  destruct (_fill_media_queue_total self [] fs (_medias out timeframe)
              media_count new_only condition) as [st Hst].
  rewrite (download_run out self (DestFS fs) condition media_count
             timeframe new_only pgpbar_cls dlpbar_cls tr fs false tr st
             eq_refl Hpg Hdl Hst) in Hreturn.
  injection Hreturn as _ <-.
  eexists. split; [reflexivity|]. split.
  - intros id Hin. in_pieces Hin.
  - intros u c Hin. in_pieces Hin.
Qed.

Lemma download_leaves_instance_alone_witness :
  exists mid,
    [Start 0%nat; AtExit] = [] ++ mid
    /\ (forall id, ~ In (CloseFs id) mid)
    /\ (forall u c, ~ In (OpenFs u c) mid).
Proof.
  apply (download_leaves_instance_alone
           (Listing.outside [Listing.summary_image])
           (Listing.the_looter false) Listing.nothing None None None false
           None None [] 1).
  reflexivity.
Defined.

(** X12. A destination that is neither a URL nor a filesystem instance
    makes both [download] and the override of [PostLooter] raise a
    [TypeError] before anything is done: no filesystem opened, no progress
    bar, no worker, no fill. *)
Theorem download_rejects_destination out self post_self condition media_count
    timeframe new_only pgpbar_cls dlpbar_cls tr :
  download out self DestOther condition media_count timeframe new_only
           pgpbar_cls dlpbar_cls tr
  = (Raise (TypeError "<destination> must be a FS URL or FS instance."), tr)
  /\ post_download out post_self DestOther condition media_count new_only tr
     = (Raise (TypeError "<destination> must be a FS URL or FS instance."), tr).
Proof. split; reflexivity. Qed.

(** X13. A progress bar class that is not a [ProgressBar] makes [download]
    raise a [TypeError] after the destination has been opened: a filesystem
    opened from a URL is left open, and no worker has been started. *)
Theorem download_rejects_pbar_class out self url condition media_count
    timeframe new_only pgpbar_cls dlpbar_cls cls tr :
  is_progress_bar cls = false ->
  (pgpbar_cls = Some cls \/ (pbar_ok pgpbar_cls /\ dlpbar_cls = Some cls)) ->
  exists tail,
    download out self (DestText url) condition media_count timeframe new_only
             pgpbar_cls dlpbar_cls tr
    = (Raise (TypeError "pbar must implement the ProgressBar interface !"),
       tr ++ OpenFs url true :: tail)
    /\ (forall id, ~ In (CloseFs id) tail)
    /\ (forall w, ~ In (Start w) tail).
Proof.
  intros Hcls [-> | [Hpg ->]].
  - exists []. split; [|split; intros ? []].
    unfold download, _init_destfs, bind, emit, ret. cbv beta iota zeta.
    unfold _init_pbar at 1. rewrite Hcls. reflexivity.
  - exists (if is_not_None pgpbar_cls then [PbarInit] else []).
    split; [|split; intros ? Hin; destruct (is_not_None pgpbar_cls);
                    cbn in Hin; try tauto; destruct Hin as [Hin|[]];
                    discriminate Hin].
    unfold download, _init_destfs, bind, emit, ret. cbv beta iota zeta.
    destruct pgpbar_cls as [pg|].
    + unfold _init_pbar at 1. rewrite (Hpg pg eq_refl). cbn [negb].
      unfold emit. unfold _init_pbar at 1. rewrite Hcls. cbn [negb].
      unfold raise. rewrite <- app_assoc. reflexivity.
    + unfold _init_pbar at 1. unfold ret.
      unfold _init_pbar at 1. rewrite Hcls. cbn [negb].
      unfold raise. reflexivity.
Qed.

Lemma download_rejects_pbar_class_witness :
  exists tail,
    download (Listing.outside []) (Listing.the_looter false)
             (DestText "osfs://pictures") None None None false
             (Some {| is_progress_bar := false |}) None []
    = (Raise (TypeError "pbar must implement the ProgressBar interface !"),
       [] ++ OpenFs "osfs://pictures" true :: tail)
    /\ (forall id, ~ In (CloseFs id) tail)
    /\ (forall w, ~ In (Start w) tail).
Proof.
  apply (download_rejects_pbar_class (Listing.outside [])
           (Listing.the_looter false) "osfs://pictures" None None None false
           (Some {| is_progress_bar := false |}) None
           {| is_progress_bar := false |} []).
  - reflexivity.
  - left. reflexivity.
Defined.

(** X14. [download] returns the count of the fill and issues a warning,
    ["No medias found."], exactly when that count is 0; it issues no
    other warning. *)
Theorem download_warns_only_when_empty out self destination condition
    media_count timeframe new_only pgpbar_cls dlpbar_cls tr fs closing tr1 st :
  _init_destfs out destination true tr = (Ok (fs, closing), tr1) ->
  pbar_ok pgpbar_cls ->
  pbar_ok dlpbar_cls ->
  _fill_media_queue self [] fs (_medias out timeframe) media_count new_only
                    condition = Ok st ->
  exists tail,
    download out self destination condition media_count timeframe new_only
             pgpbar_cls dlpbar_cls tr = (Ok (medias_queued st), tr1 ++ tail)
    /\ (In (Warn "No medias found.") tail <-> medias_queued st = 0)
    /\ (forall msg, In (Warn msg) tail -> msg = "No medias found.").
Proof.
  intros Hdest Hpg Hdl Hfill.
  eexists. split; [|split].
  - apply (download_run _ _ _ _ _ _ _ _ _ _ _ _ _ _ Hdest Hpg Hdl Hfill).
  - split.
    + intros Hin.
      repeat (apply in_app_or in Hin; destruct Hin as [Hin|Hin]);
        try (apply in_map_iff in Hin; destruct Hin as [? [Hin _]];
             discriminate Hin);
        try (destruct (is_not_None _); cbn in Hin; try tauto;
             destruct Hin as [Hin|[]]; discriminate Hin);
        try (destruct Hin as [Hin|[]]; discriminate Hin).
      * destruct (medias_queued st =? 0) eqn:Hzero;
          [apply Z.eqb_eq; exact Hzero | destruct Hin].
      * destruct (existsb _ _); [|destruct Hin].
        apply in_map_iff in Hin. destruct Hin as [? [Hin _]].
        discriminate Hin.
      * destruct closing; [|destruct Hin].
        destruct Hin as [Hin|[]]. discriminate Hin.
    + intros Hzero. rewrite Hzero, Z.eqb_refl.
      do 6 (apply in_or_app; right). apply in_or_app. left. left. reflexivity.
  - intros msg Hin.
    repeat (apply in_app_or in Hin; destruct Hin as [Hin|Hin]);
      try (apply in_map_iff in Hin; destruct Hin as [? [Hin _]];
           discriminate Hin);
      try (destruct (is_not_None _); cbn in Hin; try tauto;
           destruct Hin as [Hin|[]]; discriminate Hin);
      try (destruct Hin as [Hin|[]]; discriminate Hin).
    + destruct (medias_queued st =? 0); [|destruct Hin].
      destruct Hin as [Hin|[]]. injection Hin as <-. reflexivity.
    + destruct (existsb _ _); [|destruct Hin].
      apply in_map_iff in Hin. destruct Hin as [? [Hin _]]. discriminate Hin.
    + destruct closing; [|destruct Hin].
      destruct Hin as [Hin|[]]. discriminate Hin.
Qed.

Lemma download_warns_only_when_empty_witness :
  exists tail,
    download (Listing.outside [Listing.summary_image])
             (Listing.the_looter false) (DestFS Listing.nothing) None None
             None false None None []
    = (Ok 1, [] ++ tail)
    /\ (In (Warn "No medias found.") tail <-> 1 = 0)
    /\ (forall msg, In (Warn msg) tail -> msg = "No medias found.").
Proof.
  apply (download_warns_only_when_empty
           (Listing.outside [Listing.summary_image])
           (Listing.the_looter false) (DestFS Listing.nothing) None None None
           false None None [] Listing.nothing false []
           {| queue_of := [Some Listing.summary_image]; medias_queued := 1;
              medias_left := [] |}).
  - reflexivity.
  - intros cls H; discriminate H.
  - intros cls H; discriminate H.
  - reflexivity.
Defined.

Lemma range_nonpositive (n : Z) : n <= 0 -> range n = [].
Proof.
  intros Hn. unfold range. destruct n; try reflexivity. lia.
Qed.

(** X15. With a number of jobs of zero or less, [download] starts no
    worker and joins none, and still fills the queue and returns the count
    of queued medias, which nothing will download. *)
Theorem download_without_jobs out self destination condition media_count
    timeframe new_only pgpbar_cls dlpbar_cls tr fs closing tr1 st :
  jobs self <= 0 ->
  _init_destfs out destination true tr = (Ok (fs, closing), tr1) ->
  pbar_ok pgpbar_cls ->
  pbar_ok dlpbar_cls ->
  _fill_media_queue self [] fs (_medias out timeframe) media_count new_only
                    condition = Ok st ->
  exists tail,
    download out self destination condition media_count timeframe new_only
             pgpbar_cls dlpbar_cls tr = (Ok (medias_queued st), tr1 ++ tail)
    /\ (forall w, ~ In (Start w) tail)
    /\ (forall w, ~ In (Join w) tail).
Proof.
  intros Hjobs Hdest Hpg Hdl Hfill.
  eexists. split; [|split].
  - apply (download_run _ _ _ _ _ _ _ _ _ _ _ _ _ _ Hdest Hpg Hdl Hfill).
  - intros w Hin. rewrite (range_nonpositive _ Hjobs) in Hin.
    cbn [map existsb] in Hin. in_pieces Hin.
  - intros w Hin. rewrite (range_nonpositive _ Hjobs) in Hin.
    cbn [map existsb] in Hin. in_pieces Hin.
Qed.

Lemma download_without_jobs_witness :
  exists tail,
    download (Listing.outside [Listing.summary_image])
             (__init__ false true false 0 Listing.names false false false
                       Listing.posts)
             (DestFS Listing.nothing) None None None false None None []
    = (Ok 1, [] ++ tail)
    /\ (forall w, ~ In (Start w) tail)
    /\ (forall w, ~ In (Join w) tail).
Proof.
  apply (download_without_jobs
           (Listing.outside [Listing.summary_image])
           (__init__ false true false 0 Listing.names false false false
                     Listing.posts)
           (DestFS Listing.nothing) None None None false None None []
           Listing.nothing false []
           {| queue_of := [Some Listing.summary_image]; medias_queued := 1;
              medias_left := [] |}).
  - cbn. lia.
  - reflexivity.
  - intros cls H; discriminate H.
  - intros cls H; discriminate H.
  - reflexivity.
Defined.

(** X16. [PostLooter.download], handed a filesystem instance, runs its one
    worker in the calling thread and does nothing else to be seen: it starts
    and joins no thread, opens and closes no filesystem and never warns,
    not even when it queued nothing; the count it returns is 0 or 1. *)
Theorem post_download_single out self fs condition media_count new_only tr :
  exists n,
    post_download out self (DestFS fs) condition media_count new_only tr
    = (Ok n, tr ++ [Run])
    /\ (n = 0 \/ n = 1).
Proof.
  unfold post_download, _init_destfs, bind, emit, ret, lift.
  cbv beta iota zeta.
  unfold _fill_media_queue, post_medias.
  rewrite fill_loop_cons.
  destruct (candidate _ _ _) as [m|].
  - destruct (already_there _ _ _ && new_only).
    + exists 0. auto.
    + destruct (count_reached media_count (0 + 1)); exists 1; auto.
  - exists 0. auto.
Qed.

(** ** Sessions *)











(** X18. After [_logout] nobody is logged in any more, at any later time
    and whatever session is asked about; and [_logout] posts to the logout
    page exactly when somebody was logged in. *)
Theorem logout_logs_out now later cachefs session session' :
  _logged_in later (snd (_logout now cachefs session)) session' = false
  /\ (fst (_logout now cachefs session) <> []
      <-> _logged_in now cachefs session = true).
Proof.
  split.
  - unfold _logout. cbn [snd]. destruct cachefs; reflexivity.
  - unfold _logout, _logged_in. cbn [fst].
    destruct (_sessionid now cachefs session); cbn; split;
      try discriminate; try reflexivity; intros H; try discriminate H.
    contradiction H. reflexivity.
Qed.

(** ** Profile and post looters *)

(** X19. [ProfileLooter.pages] looks the user name up once: a call that
    returns has looked up at most one name and leaves the owner id in the
    looter; every later call hands out an iterator made from that owner id
    without any lookup, even if the lookup would now fail, and leaves the
    looter as it is. *)
Theorem profile_pages_resolves_once from_username later_lookup self iterator
    self' looked :
  profile_pages from_username self = Some (iterator, self', looked) ->
  (List.length looked <= 1)%nat
  /\ exists owner,
       _owner_id self' = Some owner
       /\ profile_pages later_lookup self' = Some (FromOwner owner, self', []).
Proof.
  unfold profile_pages.
  destruct (_owner_id self) as [owner|] eqn:Howner.
  - intros [= <- <- <-]. split; [cbn; lia|].
    exists owner. rewrite Howner. auto.
  - destruct (from_username (_username self)) as [owner|]; [|discriminate].
    intros [= <- <- <-]. split; [cbn; lia|].
    exists owner. cbn. auto.
Qed.

Lemma profile_pages_resolves_once_witness :
  (List.length ["someone"] <= 1)%nat
  /\ exists owner,
       _owner_id {| profile_looter := Listing.the_looter false;
                    _username := "someone"; _owner_id := Some "42" |}
       = Some owner
       /\ profile_pages (fun _ => None)
            {| profile_looter := Listing.the_looter false;
               _username := "someone"; _owner_id := Some "42" |}
          = Some (FromOwner owner,
                  {| profile_looter := Listing.the_looter false;
                     _username := "someone"; _owner_id := Some "42" |}, []).
Proof.
  apply (profile_pages_resolves_once
           (fun _ => Some "42") (fun _ => None)
           (profile_init "someone" (Listing.the_looter false))
           (FromUsername "someone" "42")).
  reflexivity.
Defined.

(** X20. The [info] property of a post looter fetches the post once: a
    first access on a new looter answers what [get_post_info] gives for
    the looter's code, and every access after any access answers the same
    record without fetching anything. *)
Theorem info_fetched_once self :
  info_property (snd (fst (info_property self)))
  = (fst (fst (info_property self)), snd (fst (info_property self)), [])
  /\ (_info self = None ->
      fst (fst (info_property self)) = info (post self)
      /\ snd (info_property self) = [code (post self)]).
Proof.
  unfold info_property.
  destruct (_info self) as [cached|] eqn:Hinfo; cbn.
  - rewrite Hinfo. split; [reflexivity | discriminate].
  - split; [reflexivity|]. intros _. split; reflexivity.
Qed.

Lemma info_fetched_once_witness :
  fst (fst (info_property (post_init "p1" (Listing.the_looter false))))
  = info (post (post_init "p1" (Listing.the_looter false)))
  /\ snd (info_property (post_init "p1" (Listing.the_looter false)))
     = [code (post (post_init "p1" (Listing.the_looter false)))].
Proof.
  apply (proj2 (info_fetched_once
                  (post_init "p1" (Listing.the_looter false)))).
  reflexivity.
Defined.

(** X21. [PostLooter.medias] yields the post when called without a time
    frame, and never yields anything with one: it then raises, at the
    latest on the name [media_date], which nothing binds. *)
Theorem post_medias_timeframe_raises get_times truthy self frame :
  post_medias_within get_times truthy self None = inr (post_medias self)
  /\ exists e,
       post_medias_within get_times truthy self (Some frame) = inl e
       /\ (e = TimesError \/ e = KeyError "media"
           \/ e = NameError "media_date").
Proof.
  split; [reflexivity|].
  unfold post_medias_within, dict_item.
  destruct (get_times frame) as [[start end_]|]; [|eauto].
  destruct (dict_get "taken_at_timestamp" (info self)) as [v|].
  - destruct (truthy v); [eauto|].
    destruct (dict_get "media" (info self)); eauto.
  - destruct (dict_get "media" (info self)); eauto.
Qed.
